(** * flux: filter registry, backend exchange and typed value resolution

    A shallow embedding of the gateway core of [bytepowered/flux]:
    - package [ext]: the registry of global and selective filters;
    - package [backend]: [DoExchange], the terminal handler of a route;
    - package [support]: the typed value resolvers and the form to JSON
      transcoder.

    Go values are modelled as the code has them: [int] as [Z] (orders are only
    compared, never computed with), [string] and [[]byte] as byte strings,
    slices as lists, package-level variables as fields of an explicit state,
    a panic as [None] or [Panic]. *)

From Stdlib Require Import ZArith String Ascii List Permutation Sorting.Sorted.
From stdpp Require Import base option list sorting gmap strings.
From Equations Require Import Equations.

Local Open Scope string_scope.
Local Open Scope Z_scope.
Local Open Scope list_scope.

#[local] Set Warnings "-register-all".

(** ** Go values

    What an [interface{}] of this program may hold, and the [error] values
    that are passed around. *)

Module Go.

(** An [error]: made by [errors.New], or by [fmt.Errorf], which may wrap a
    cause ([%w]); or the one value that a package keeps in a variable of its
    own.  Go compares errors by identity: the value of a package variable is
    identical to itself and to no error made elsewhere, whatever its text, so
    it is known by the name of its variable. *)
Inductive error : Type :=
| errors_New (msg : string)
| fmt_Errorf (msg : string)
| fmt_Errorf_w (msg : string) (cause : error)
| package_error (variable : string) (msg : string).

(** A [map[string][]string]: [url.Values], [http.Header]. *)
Abbreviation Values := (gmap string (list string)) (only parsing).

(** A dynamically typed value.  A [float32] and a [float64] are kept as their
    bit patterns, an [io.Reader] as the bytes and the error that reading it to
    the end gives, with whether it is an [io.Closer] too. *)
Inductive value : Type :=
| VNil
| VBool (b : bool)
| VInt (z : Z)
| VInt64 (z : Z)
| VFloat32 (bits : Z)
| VFloat64 (bits : Z)
| VString (s : string)
| VBytes (bs : string)
| VStrings (l : list string)
| VSlice (l : list value)
| VStringMap (m : gmap string value)
| VReader (data : string) (failure : option error) (closer : bool)
| VMIMEValue (MIMEType : string) (Value : value)
| VError (err : error)
| VOther (typeName : string) (fields : list value).

End Go.

(** ** Package [ext]: the filter registry *)

Module Ext.

(** A [flux.Filter] value.  [Order_] is [Some o] when the filter also
    implements [flux.Orderer] (its [Order()] returns [o]); [ident] tells apart
    two filter objects that answer alike. *)
Record Filter : Type := mkFilter {
  ident : nat;
  TypeId : string;
  Order_ : option Z
}.

#[export] Instance Filter_eq_dec : EqDecision Filter.
Proof. solve_decision. Defined.

(** What a caller may pass for the [interface{}] argument of the store
    functions: nil, a value that is no [flux.Filter], or a filter. *)
Inductive any : Type :=
| Nil
| NotAFilter (implementsOrderer : option Z)
| AFilter (f : Filter).

Record filterWrapper : Type := mkWrapper {
  filter : Filter;
  order : Z
}.

#[export] Instance filterWrapper_eq_dec : EqDecision filterWrapper.
Proof. solve_decision. Defined.

Abbreviation filterArray := (list filterWrapper) (only parsing).

(** [sort.Interface] as [filterArray] implements it.  An index out of range
    panics ([None]). *)
Definition Len (s : filterArray) : nat := length s.

Definition Swap (s : filterArray) (i j : nat) : option filterArray :=
  match s !! i, s !! j with
  | Some a, Some b => Some (<[j := a]> (<[i := b]> s))
  | _, _ => None
  end.

Definition Less (s : filterArray) (i j : nat) : option bool :=
  match s !! i, s !! j with
  | Some a, Some b => Some (order a <? order b)
  | _, _ => None
  end.

(** [orderOf]: the order of a value, 0 when it does not implement
    [flux.Orderer]. *)
Definition orderOf (v : any) : Z :=
  match v with
  | AFilter f => default 0 (Order_ f)
  | NotAFilter o => default 0 o
  | Nil => 0
  end.

(** Modelled from the spec: [pkg.RequireNotNil] is not among the sources; the
    registration validates that the filter is non-nil and fails fast
    otherwise. *)
Definition RequireNotNil (v : any) : option any :=
  match v with
  | Nil => None
  | _ => Some v
  end.

(** The type assertion [.(flux.Filter)], which panics on any other value. *)
Definition assertFilter (v : any) : option Filter :=
  match v with
  | AFilter f => Some f
  | _ => None
  end.

Definition _checkedAppendFilter (v : any) (inp : list filterWrapper)
  : option (list filterWrapper) :=
  v' ← RequireNotNil v;
  f ← assertFilter v';
  Some (inp ++ [mkWrapper f (orderOf v)]).

(** The two package-level variables. *)
Record registry : Type := mkRegistry {
  _globalFilter : list filterWrapper;
  _selectiveFilter : list filterWrapper
}.

(** [make([]filterWrapper, 0, 16)] twice. *)
Definition initial : registry := mkRegistry [] [].

Definition _getFilters (inp : list filterWrapper) : list Filter :=
  filter <$> inp.

Definition LoadSelectiveFilters (r : registry) : list Filter :=
  _getFilters (_selectiveFilter r).

Definition LoadGlobalFilters (r : registry) : list Filter :=
  _getFilters (_globalFilter r).

(** Modelled from the spec: [pkg.RequireNotEmpty] is not among the sources; an
    empty id is invalid input, signalled by failing fast. *)
Definition RequireNotEmpty (s : string) : option string :=
  if decide (s = EmptyString) then None else Some s.

Fixpoint findFilter (filterId : string) (l : list filterWrapper) : option Filter :=
  match l with
  | [] => None
  | f :: l' =>
      if decide (filterId = TypeId (filter f)) then Some (filter f)
      else findFilter filterId l'
  end.

(** [LoadSelectiveFilter]: [None] is the panic, [Some None] is
    [(nil, false)], [Some (Some f)] is [(f, true)]. *)
Definition LoadSelectiveFilter (filterId : string) (r : registry)
  : option (option Filter) :=
  filterId' ← RequireNotEmpty filterId;
  Some (findFilter filterId' (_selectiveFilter r)).

(** The order a filter reports: what [orderOf] gives for it. *)
Definition filterOrder (f : Filter) : Z := orderOf (AFilter f).

(** A list of filters in non-decreasing order of their order values. *)
Definition nondecreasing (l : list Filter) : Prop :=
  ∀ (i j : nat) (a b : Filter),
    (i ≤ j)%nat → l !! i = Some a → l !! j = Some b →
    filterOrder a ≤ filterOrder b.

(** Every occurrence of [g] stands before every occurrence of [f]. *)
Definition placed_before (g f : Filter) (l : list Filter) : Prop :=
  g ∈ l ∧ f ∈ l ∧
  ∀ (i j : nat), l !! j = Some g → l !! i = Some f → (j < i)%nat.

(** A registration call. *)
Inductive call : Type :=
| CallStoreGlobalFilter (v : any)
| CallStoreSelectiveFilter (v : any).

(** The postcondition of [sort.Sort] on a [filterArray]: the result holds the
    same wrappers, and no later element is [Less] than an earlier one. *)
Definition sorts (sort_Sort : filterArray → filterArray) : Prop :=
  (∀ s, sort_Sort s ≡ₚ s) ∧
  (∀ s (i j : nat), (i < j < Len (sort_Sort s))%nat →
     Less (sort_Sort s) j i = Some false).

Section Registry.

(** [sort.Sort] of the Go standard library, which sorts the slice in place;
    the algorithm is the library's and is not stable. *)
Variable sort_Sort : filterArray → filterArray.

Definition StoreGlobalFilter (v : any) (r : registry) : option registry :=
  g ← _checkedAppendFilter v (_globalFilter r);
  Some (mkRegistry (sort_Sort g) (_selectiveFilter r)).

Definition StoreSelectiveFilter (v : any) (r : registry) : option registry :=
  s ← _checkedAppendFilter v (_selectiveFilter r);
  Some (mkRegistry (_globalFilter r) (sort_Sort s)).

Definition step (r : registry) (c : call) : option registry :=
  match c with
  | CallStoreGlobalFilter v => StoreGlobalFilter v r
  | CallStoreSelectiveFilter v => StoreSelectiveFilter v r
  end.

(** A sequence of registrations, from left to right; a panic ends it. *)
Fixpoint run (cs : list call) (r : registry) : option registry :=
  match cs with
  | [] => Some r
  | c :: cs' => r' ← step r c; run cs' r'
  end.

End Registry.

(** A reference sort that meets [sorts]: merge sort on the stored orders. *)
Definition order_le (a b : filterWrapper) : Prop := order a ≤ order b.

#[export] Instance order_le_dec : RelDecision order_le.
Proof. intros a b. unfold order_le. apply _. Defined.

Definition reference_sort : filterArray → filterArray := merge_sort order_le.

End Ext.

(** ** Package [ext] with its memory: slices and their backing arrays

    The registry above keeps the contents of the two slices.  Here the slices
    are what Go has: a pointer to a backing array in the heap, a length and a
    capacity, so that two slices may share an array and a write through one
    is seen through the other. *)

Module ExtMem.

Abbreviation loc := positive (only parsing).

(** A backing array: of [filterWrapper], or of [flux.Filter] (an interface
    value: [None] is nil). *)
Inductive array : Type :=
| WrapperArray (ws : list Ext.filterWrapper)
| FilterArray (fs : list (option Ext.Filter)).

Record slice : Type := mkSlice {
  ptr : loc;
  len : nat;
  cap : nat
}.

(** The heap and the two package-level variables. *)
Record memory : Type := mkMemory {
  heap : gmap loc array;
  _globalFilter : slice;
  _selectiveFilter : slice
}.

(** The elements [s[0] .. s[len-1]] of a [[]filterWrapper]. *)
Definition wrappers (h : gmap loc array) (s : slice)
  : option (list Ext.filterWrapper) :=
  match h !! ptr s with
  | Some (WrapperArray ws) =>
      if decide (len s ≤ length ws)%nat then Some (take (len s) ws) else None
  | _ => None
  end.

(** The elements of a [[]flux.Filter]. *)
Definition filters (h : gmap loc array) (s : slice)
  : option (list (option Ext.Filter)) :=
  match h !! ptr s with
  | Some (FilterArray fs) =>
      if decide (len s ≤ length fs)%nat then Some (take (len s) fs) else None
  | _ => None
  end.

(** [make([]flux.Filter, n)]: a new array of [n] nil elements, at an address
    that is not in use. *)
Definition make (n : nat) (h : gmap loc array) : slice * gmap loc array :=
  let l := fresh (dom h) in
  (mkSlice l n n, <[l := FilterArray (replicate n None)]> h).

(** [s[i] = x] on a [[]flux.Filter]; an index out of range panics. *)
Definition store (s : slice) (i : nat) (x : option Ext.Filter)
    (h : gmap loc array) : option (gmap loc array) :=
  match h !! ptr s with
  | Some (FilterArray fs) =>
      if decide (i < len s ≤ length fs)%nat
      then Some (<[ptr s := FilterArray (<[i := x]> fs)]> h)
      else None
  | _ => None
  end.

(** The loop [for i, v := range in { out[i] = v.filter }], from index [i]. *)
Fixpoint range_store (out : slice) (i : nat) (inp : list Ext.filterWrapper)
    (h : gmap loc array) : option (gmap loc array) :=
  match inp with
  | [] => Some h
  | v :: inp' =>
      h' ← store out i (Some (Ext.filter v)) h;
      range_store out (S i) inp' h'
  end.

Definition _getFilters (inp : slice) (h : gmap loc array)
  : option (slice * gmap loc array) :=
  ws ← wrappers h inp;
  let '(out, h1) := make (length ws) h in
  h2 ← range_store out 0 ws h1;
  Some (out, h2).

(** A call that changes the heap and assigns neither package variable. *)
Definition in_memory (m : memory) (r : option (slice * gmap loc array))
  : option (slice * memory) :=
  '(out, h) ← r; Some (out, mkMemory h (_globalFilter m) (_selectiveFilter m)).

Definition LoadSelectiveFilters (m : memory) : option (slice * memory) :=
  in_memory m (_getFilters (_selectiveFilter m) (heap m)).

Definition LoadGlobalFilters (m : memory) : option (slice * memory) :=
  in_memory m (_getFilters (_globalFilter m) (heap m)).

Definition LoadSelectiveFilter (filterId : string) (m : memory)
  : option (option Ext.Filter) :=
  filterId' ← Ext.RequireNotEmpty filterId;
  ws ← wrappers (heap m) (_selectiveFilter m);
  Some (Ext.findFilter filterId' ws).

(** A caller's assignment [a[i] = x] to an element of an array it was
    given. *)
Definition assign (a : slice) (i : nat) (x : option Ext.Filter) (m : memory)
  : option memory :=
  h ← store a i x (heap m);
  Some (mkMemory h (_globalFilter m) (_selectiveFilter m)).

(** The list of filters that a load returned. *)
Definition returned (r : option (slice * memory))
  : option (list (option Ext.Filter)) :=
  '(out, m) ← r; filters (heap m) out.

(** The filters of a list of wrappers, as elements of a [[]flux.Filter]. *)
Definition unwrapped (ws : list Ext.filterWrapper) : list (option Ext.Filter) :=
  Some ∘ Ext.filter <$> ws.

(** The two loads, by the sequence they read. *)
Inductive sequence : Type := Global | Selective.

Definition load (q : sequence) : memory → option (slice * memory) :=
  match q with
  | Global => LoadGlobalFilters
  | Selective => LoadSelectiveFilters
  end.

(** The memory holds the registry [r]. *)
Definition holds (m : memory) (r : Ext.registry) : Prop :=
  wrappers (heap m) (_globalFilter m) = Some (Ext._globalFilter r) ∧
  wrappers (heap m) (_selectiveFilter m) = Some (Ext._selectiveFilter r).

End ExtMem.

(** ** Package [backend]: the exchange with a backend service

    [DoExchange] works through its collaborators: the context, the backend it
    is given, the registry of response decoders and the decoder it finds
    there.  Each call to one of them is a [call]; a program is the calls it
    makes and what it does with their results, whatever the collaborators
    answer. *)

Module Backend.
Import Go.

(** [flux.StateError]. *)
Record StateError : Type := mkStateError {
  StatusCode : Z;
  ErrorCode : string;
  Message : string;
  Internal : option error
}.

(** Modelled from the spec: the declaration of [flux.Argument] is not among
    the sources; an argument has a declared type-class name, generic sub-type
    names, a name and a MIME value. *)
Record Argument : Type := mkArgument {
  TypeClass : string;
  TypeGeneric : list string;
  ArgName : string;
  ArgValue : value
}.

(** Modelled from the spec: the declaration of [flux.BackendService] is not
    among the sources; a service has a protocol identifier, an upstream host,
    URI and method and an ordered list of arguments. *)
Record BackendService : Type := mkBackendService {
  RpcProto : string;
  RemoteHost : string;
  Interface : string;
  Method : string;
  Arguments : list Argument
}.

(** Modelled from the spec: the declaration of [flux.Endpoint] is not among
    the sources; an endpoint has its target service and route metadata. *)
Record Endpoint : Type := mkEndpoint {
  Service : BackendService;
  Authorize : bool;
  HttpMethod : string;
  HttpPattern : string
}.

(** A [flux.BackendResponseDecoder]: a function value, known by its name. *)
Abbreviation decoder := nat (only parsing).

(** The calls of [DoExchange] to its collaborators, each with the type of what
    it returns: [ctx.Endpoint()], [exchange.Invoke(service, ctx)],
    [ext.LoadBackendResponseDecoder(proto)], [decoder(ctx, resp)] and the
    three setters of [ctx.Response()]. *)
Inductive call : Type → Type :=
| CtxEndpoint : call Endpoint
| Invoke (service : BackendService) : call (value * option StateError)
| LoadBackendResponseDecoder (proto : string) : call (option decoder)
| Decode (d : decoder) (resp : value)
    : call (Z * Values * value * option error)
| SetStatusCode (code : Z) : call unit
| SetHeaders (headers : Values) : call unit
| SetBody (body : value) : call unit.

Inductive prog (R : Type) : Type :=
| Ret (r : R)
| Do {X : Type} (c : call X) (k : X → prog R).

Arguments Ret {R} r.
Arguments Do {R X} c k.

(** A single call, and sequencing. *)
Definition perform {X : Type} (c : call X) : prog X := Do c Ret.

Fixpoint bind {A B : Type} (k : A → prog B) (p : prog A) : prog B :=
  match p with
  | Ret a => k a
  | Do c k' => Do c (λ x, bind k (k' x))
  end.

#[export] Instance prog_bind : MBind prog := @bind.
#[export] Instance prog_ret : MRet prog := @Ret.

Section Exchange.

(** [flux.StatusServerError] and [flux.ErrorCodeGatewayInternal], whose
    declarations are not among the sources. *)
Variable StatusServerError : Z.
Variable ErrorCodeGatewayInternal : string.

Definition ErrBackendResponseDecoderNotFound : StateError :=
  {| StatusCode := StatusServerError;
     ErrorCode := ErrorCodeGatewayInternal;
     Message := "BACKEND:RESPONSE_DECODER:NOT_FOUND";
     Internal := None |}.

(** [DoExchange(ctx, exchange)]; the result is the [*flux.StateError], [None]
    for nil. *)
Definition DoExchange : prog (option StateError) :=
  endpoint ← perform CtxEndpoint;
  '(resp, err) ← perform (Invoke (Service endpoint));
  match err with
  | Some err => mret (Some err)
  | None =>
      found ← perform (LoadBackendResponseDecoder (RpcProto (Service endpoint)));
      match found with
      | None => mret (Some ErrBackendResponseDecoderNotFound)
      | Some decoder =>
          '(code, headers, body, err) ← perform (Decode decoder resp);
          match err with
          | None =>
              perform (SetStatusCode code);;
              perform (SetHeaders headers);;
              perform (SetBody body);;
              mret None
          | Some err =>
              mret (Some {| StatusCode := StatusServerError;
                            ErrorCode := ErrorCodeGatewayInternal;
                            Message := "BACKEND:DECODE_RESPONSE";
                            Internal := Some err |})
          end
      end
  end.

End Exchange.

(** A call with what it returned. *)
Inductive event : Type :=
| Called {X : Type} (c : call X) (x : X).

(** The calls that write the outward response. *)
Definition is_setter (e : event) : bool :=
  match e with
  | Called (SetStatusCode _) _ | Called (SetHeaders _) _ | Called (SetBody _) _ => true
  | Called _ _ => false
  end.

(** The collaborators: what each call returns in a state of the world, and
    the state it leaves. *)
Abbreviation collaborators W := (∀ X : Type, call X → W → X * W) (only parsing).

(** Running a program against its collaborators: the result, the state of
    the world at the end, and the calls in the order they were made. *)
Fixpoint run {W R : Type} (e : collaborators W) (p : prog R) (w : W)
  : R * W * list event :=
  match p with
  | Ret r => (r, w, [])
  | Do c k =>
      let '(x, w1) := e _ c w in
      let '(r, w2, t) := run e (k x) w1 in
      (r, w2, Called c x :: t)
  end.

(** The outward response of a context that keeps what the setters write. *)
Record Response : Type := mkResponse {
  statusCode : Z;
  headers : Values;
  body : value
}.

(** Collaborators that follow a script: the context has the endpoint [ep] and
    keeps what the setters write, the backend answers [invoked], the registry
    of decoders is [decoders], and every decoder answers [decoded]. *)
Definition scripted (ep : Endpoint) (invoked : value * option StateError)
    (decoders : gmap string decoder)
    (decoded : Z * Values * value * option error) : collaborators Response :=
  λ X c,
    match c in call X return Response → X * Response with
    | CtxEndpoint => λ w, (ep, w)
    | Invoke _ => λ w, (invoked, w)
    | LoadBackendResponseDecoder proto => λ w, (decoders !! proto, w)
    | Decode _ _ => λ w, (decoded, w)
    | SetStatusCode code => λ w, (tt, mkResponse code (headers w) (body w))
    | SetHeaders hs => λ w, (tt, mkResponse (statusCode w) hs (body w))
    | SetBody b => λ w, (tt, mkResponse (statusCode w) (headers w) b)
    end.

End Backend.

(** ** Package [support]: typed value resolvers

    The resolvers call into libraries that are not part of the program: the
    casts of [spf13/cast], the JSON serializer, [url.ParseQuery] and [fmt].
    They are taken as they are given, as the fields of [Library]; so are the
    names that the packages [flux] and [ext] declare, in [Names]. *)

Module Support.
Import Go.

(** [flux.MIMEValue]. *)
Record MIMEValue : Type := mkMIMEValue {
  MIMEType : string;
  Value : value
}.

(** What a call returns: it panics, or it returns a value with an [error]
    ([None] for nil). *)
Inductive result (A : Type) : Type :=
| Panic
| Return (a : A) (err : option error).

Arguments Panic {A}.
Arguments Return {A} a err.

Class Library : Type := {
  (** [cast.ToIntE] and its siblings: the value and the error of a cast. *)
  cast_ToIntE : value → Z * option error;
  cast_ToInt64E : value → Z * option error;
  cast_ToFloat32E : value → Z * option error;
  cast_ToFloat64E : value → Z * option error;
  cast_ToBoolE : value → bool * option error;
  cast_ToStringE : value → string * option error;
  cast_ToStringMapE : value → gmap string value * option error;
  (** The serializer registered as [ext.TypeNameSerializerJson]. *)
  json_Marshal : value → string * option error;
  json_Unmarshal : string → gmap string value * option error;
  (** [url.ParseQuery]. *)
  url_ParseQuery : string → Values * option error;
  (** The order in which a [range] visits the keys of a [url.Values]. *)
  range_Values : Values → list (string * list string);
  (** [fmt.Sprintf]. *)
  fmt_Sprintf : string → list value → string
}.

Class Names : Type := {
  ValueMIMETypeGoText : string;
  ValueMIMETypeGoStringMap : string;
  ValueMIMETypeGoObject : string;
  JavaLangStringClassName : string;
  JavaLangIntegerClassName : string;
  JavaLangLongClassName : string;
  JavaLangFloatClassName : string;
  JavaLangDoubleClassName : string;
  JavaLangBooleanClassName : string;
  JavaUtilMapClassName : string;
  JavaUtilListClassName : string;
  DefaultTypedValueResolverName : string
}.

(** The double quote and the backslash. *)
Definition dquote : ascii := "034"%char.
Definition backslash : ascii := "092"%char.

(** [strings.Replace] of the double quote by a backslash and a double quote,
    with no limit on the number of replacements. *)
Fixpoint JSONStringValueEncode (str : string) : string :=
  match str with
  | EmptyString => EmptyString
  | String c rest =>
      if Ascii.eqb c dquote
      then String backslash (String dquote (JSONStringValueEncode rest))
      else String c (JSONStringValueEncode rest)
  end.

(** [strings.Join]. *)
Definition strings_Join (elems : list string) (sep : string) : string :=
  String.concat sep elems.

(** [strings.Contains]. *)
Fixpoint strings_Contains (s substr : string) : bool :=
  String.prefix substr s ||
  match s with
  | EmptyString => false
  | String _ rest => strings_Contains rest substr
  end.

(** The text between two double quotes. *)
Definition quoted (s : string) : string :=
  String dquote (s +:+ String dquote EmptyString).

(** The inner loop [for i, val := range values { copied[i] = ... }], from
    index [i]. *)
Fixpoint copy_encoded (i : nat) (values : list string) (copied : list string)
  : list string :=
  match values with
  | [] => copied
  | val :: values' =>
      copy_encoded (S i) values'
        (<[i := quoted (JSONStringValueEncode val)]> copied)
  end.

(** The body of the outer loop, for one key: the field that is appended;
    [values[0]] panics on an empty list. *)
Definition field (key : string) (values : list string) : option string :=
  if decide (1 < length values)%nat then
    let copied := copy_encoded 0 values (replicate (length values) EmptyString) in
    Some (quoted key +:+ ":[" +:+ strings_Join copied "," +:+ "]")
  else
    v0 ← values !! 0%nat;
    Some (quoted key +:+ ":" +:+ quoted (JSONStringValueEncode v0)).

(** The outer loop [for key, values := range queryValues], over the keys in
    the order the range visits them. *)
Fixpoint range_fields (entries : list (string * list string))
    (fields : list string) : option (list string) :=
  match entries with
  | [] => Some fields
  | (key, values) :: entries' =>
      f ← field key values;
      range_fields entries' (fields ++ [f])
  end.

(** The form to JSON transcoding as the specification words it: a value is a
    quoted, escaped string; a key with one value is rendered as that string, a
    key with several as the array of them; the pairs are joined into one flat
    object. *)
Definition json_string (s : string) : string :=
  quoted (JSONStringValueEncode s).

Definition json_array (values : list string) : string :=
  "[" +:+ strings_Join (json_string <$> values) "," +:+ "]".

Definition json_member (entry : string * list string) : string :=
  quoted entry.1 +:+ ":" +:+
  match entry.2 with
  | [v] => json_string v
  | values => json_array values
  end.

Definition json_object (members : list string) : string :=
  "{" +:+ strings_Join members "," +:+ "}".

(** The escaping as the specification words it: every embedded double quote
    is doubled. *)
Fixpoint quotes_doubled (str : string) : string :=
  match str with
  | EmptyString => EmptyString
  | String c rest =>
      if Ascii.eqb c dquote
      then String dquote (String dquote (quotes_doubled rest))
      else String c (quotes_doubled rest)
  end.

Section Resolvers.

Context {L : Library} {N : Names}.

(** The package variable [errCastToByteTypeNotSupported]. *)
Definition errCastToByteTypeNotSupported : error :=
  package_error "support.errCastToByteTypeNotSupported"
    "cannot convert value to []byte".

(** [cast.ToInt] and its siblings: the value of the cast, its error
    dropped. *)
Definition cast_ToInt (i : value) : Z := (cast_ToIntE i).1.
Definition cast_ToInt64 (i : value) : Z := (cast_ToInt64E i).1.
Definition cast_ToFloat32 (i : value) : Z := (cast_ToFloat32E i).1.
Definition cast_ToFloat64 (i : value) : Z := (cast_ToFloat64E i).1.
Definition cast_ToBool (i : value) : bool := (cast_ToBoolE i).1.
Definition cast_ToStringMap (i : value) : gmap string value :=
  (cast_ToStringMapE i).1.

(** The JSON object of a form payload; a nil [[]byte] is the empty string. *)
Definition JSONBytesFromQueryString (queryStr : string) : result string :=
  let '(queryValues, err) := url_ParseQuery queryStr in
  match err with
  | Some err => Return EmptyString (Some err)
  | None =>
      match range_fields (range_Values queryValues) [] with
      | None => Panic
      | Some fields =>
          Return ("{" +:+ strings_Join fields "," +:+ "}") None
      end
  end.

(** The type switch of [_toBytes0].  A reader is read to its end and, when it
    is a closer, closed: what is left of the reader is no part of the
    result. *)
Definition _toBytes0 (v : value) : string * option error :=
  match v with
  | VBytes bs => (bs, None)
  | VString s => (s, None)
  | VReader data failure _ =>
      match failure with
      | Some err => (EmptyString, Some err)
      | None => (data, None)
      end
  | _ => (EmptyString, Some errCastToByteTypeNotSupported)
  end.

(** [_toBytes] wraps the error of [_toBytes0]. *)
Definition _toBytes (v : value) : string * option error :=
  match _toBytes0 v with
  | (_, Some err) =>
      (EmptyString,
       Some (fmt_Errorf_w
               (fmt_Sprintf "value: %+v, value.type:%T, error: %w" [v; v; VError err])
               err))
  | (bs, None) => (bs, None)
  end.

(** A pair [(a, err)] of a library call, as a result. *)
Definition returned {A : Type} (r : A * option error) : result A :=
  Return r.1 r.2.

#[local] Instance error_eq_dec : EqDecision error.
Proof. solve_decision. Defined.

(** The [switch] on the MIME type, its cases in the order of the source; the
    type assertion [.(string)] of the first case panics on any other
    value.  The error of [_toBytes0] is compared with the package variable by
    identity: an error of a reader with the same text is another error. *)
Definition CastDecodeToString (mimeV : MIMEValue) : result string :=
  if decide (MIMEType mimeV = ValueMIMETypeGoText) then
    match Value mimeV with
    | VString s => Return s None
    | _ => Panic
    end
  else if decide (MIMEType mimeV = ValueMIMETypeGoStringMap) then
    match json_Marshal (Value mimeV) with
    | (_, Some err) => Return EmptyString (Some err)
    | (data, None) => Return data None
    end
  else
    match _toBytes0 (Value mimeV) with
    | (_, Some err) =>
        if decide (errCastToByteTypeNotSupported = err)
        then returned (cast_ToStringE (Value mimeV))
        else Return EmptyString (Some err)
    | (data, None) => Return data None
    end.

(** A nil map is the empty map. *)
Definition CastDecodeToStringMap (mimeV : MIMEValue)
  : result (gmap string value) :=
  if decide (MIMEType mimeV = ValueMIMETypeGoStringMap) then
    Return (cast_ToStringMap (Value mimeV)) None
  else if decide (MIMEType mimeV = ValueMIMETypeGoText) then
    match Value mimeV with
    | VString s =>
        match json_Unmarshal s with
        | (_, Some err) =>
            Return ∅
              (Some (fmt_Errorf_w
                       (fmt_Sprintf "cannot decode text to hashmap, text: %s, error:%w"
                          [Value mimeV; VError err])
                       err))
        | (hashmap, None) => Return hashmap None
        end
    | _ => Panic
    end
  else if decide (MIMEType mimeV = ValueMIMETypeGoObject) then
    match cast_ToStringMapE (Value mimeV) with
    | (_, Some err) =>
        Return ∅
          (Some (fmt_Errorf
                   (fmt_Sprintf "cannot cast object to hashmap, object: %+v, object.type:%T"
                      [Value mimeV; Value mimeV])))
    | (sm, None) => Return sm None
    end
  else
    let unmarshal (data : string) : result (gmap string value) :=
      returned (json_Unmarshal data) in
    if strings_Contains (MIMEType mimeV) "application/json" then
      match _toBytes (Value mimeV) with
      | (_, Some err) => Return ∅ (Some err)
      | (bs, None) => unmarshal bs
      end
    else if strings_Contains (MIMEType mimeV) "application/x-www-form-urlencoded" then
      match _toBytes (Value mimeV) with
      | (_, Some err) => Return ∅ (Some err)
      | (bs, None) =>
          match JSONBytesFromQueryString bs with
          | Panic => Panic
          | Return _ (Some err) => Return ∅ (Some err)
          | Return jbs None => unmarshal jbs
          end
      end
    else
      match cast_ToStringMapE (Value mimeV) with
      | (sm, None) => Return sm None
      | (_, Some _) =>
          Return ∅
            (Some (fmt_Errorf
                     (fmt_Sprintf
                        "unsupported mime-type to hashmap, value: %+v, value.type:%T, mime-type: %s"
                        [Value mimeV; Value mimeV; VString (MIMEType mimeV)])))
      end.

(** A [flux.TypedValueResolver] as the registry holds it.  All resolvers but
    one are functions of their arguments alone; [listResolver] looks up the
    resolver of its element type in the registry, at the time it is
    called. *)
Inductive TypedValueResolver : Type :=
| Resolver (f : string → list string → MIMEValue → result value)
| listResolver.

(** Modelled from the spec: [flux.TypedValueResolveWrapper] and its
    [ResolveFunc] are not among the sources; such a resolver is an
    unconditional cast of the underlying raw value. *)
Definition ResolveFunc (resolve : value → value * option error)
  : string → list string → MIMEValue → result value :=
  λ _ _ value, returned (resolve (Value value)).

(** The package-level resolvers. *)
Definition stringResolver : TypedValueResolver :=
  Resolver (λ _ genericTypes value,
    match CastDecodeToString value with
    | Panic => Panic
    | Return s err => Return (VString s) err
    end).

Definition integerResolver : TypedValueResolver :=
  Resolver (ResolveFunc (λ value, (VInt (cast_ToInt value), None))).

Definition longResolver : TypedValueResolver :=
  Resolver (ResolveFunc (λ value, (VInt64 (cast_ToInt64 value), None))).

Definition float32Resolver : TypedValueResolver :=
  Resolver (ResolveFunc (λ value, (VFloat32 (cast_ToFloat32 value), None))).

Definition float64Resolver : TypedValueResolver :=
  Resolver (ResolveFunc (λ value, (VFloat64 (cast_ToFloat64 value), None))).

Definition booleanResolver : TypedValueResolver :=
  Resolver (ResolveFunc (λ value, (VBool (cast_ToBool value), None))).

Definition mapResolver : TypedValueResolver :=
  Resolver (λ _ genericTypes value,
    match CastDecodeToStringMap value with
    | Panic => Panic
    | Return m err => Return (VStringMap m) err
    end).

Definition defaultResolver : TypedValueResolver :=
  Resolver (λ typeClass typeGeneric value,
    Return (VStringMap
              (<["class" := VString typeClass]>
              (<["generic" := VStrings typeGeneric]>
              (<["value" := VMIMEValue (MIMEType value) (Value value)]> ∅))))
           None).

(** The registry of package [ext]. *)
Abbreviation resolvers := (gmap string TypedValueResolver) (only parsing).

(** Modelled from the spec: [ext.StoreTypedValueResolver] is not among the
    sources; one resolver is current per name, and a later registration
    replaces an earlier one for that name only. *)
Definition StoreTypedValueResolver (typeName : string)
    (resolver : TypedValueResolver) (reg : resolvers) : resolvers :=
  <[typeName := resolver]> reg.

(** Modelled from the spec: [ext.LoadTypedValueResolver] is not among the
    sources; it looks up the resolver of the name and, if none is registered,
    uses the one registered under the reserved default name.  [None] is the
    nil function of a registry that has neither. *)
Definition LoadTypedValueResolver (reg : resolvers) (typeName : string)
  : option TypedValueResolver :=
  match reg !! typeName with
  | Some resolver => Some resolver
  | None => reg !! DefaultTypedValueResolverName
  end.

(** The names that [init] takes from the packages [flux] and [ext]. *)
Definition declared_names : list string :=
  [ JavaLangStringClassName; JavaLangIntegerClassName; JavaLangLongClassName;
    JavaLangFloatClassName; JavaLangDoubleClassName; JavaLangBooleanClassName;
    JavaUtilMapClassName; JavaUtilListClassName; DefaultTypedValueResolverName ].

(** [init], on the registry as it finds it. *)
Definition init (reg : resolvers) : resolvers :=
  let store := StoreTypedValueResolver in
  foldl (λ reg '(typeName, resolver), store typeName resolver reg) reg
    [ ("string", stringResolver);
      ("String", stringResolver);
      (JavaLangStringClassName, stringResolver);
      ("int", integerResolver);
      ("Integer", integerResolver);
      (JavaLangIntegerClassName, integerResolver);
      ("int64", longResolver);
      ("long", longResolver);
      ("Long", longResolver);
      (JavaLangLongClassName, longResolver);
      ("float", float32Resolver);
      ("Float", float32Resolver);
      (JavaLangFloatClassName, float32Resolver);
      ("double", float64Resolver);
      ("Double", float64Resolver);
      (JavaLangDoubleClassName, float64Resolver);
      ("bool", booleanResolver);
      ("Boolean", booleanResolver);
      (JavaLangBooleanClassName, booleanResolver);
      ("map", mapResolver);
      ("Map", mapResolver);
      (JavaUtilMapClassName, mapResolver);
      ("slice", listResolver);
      ("List", listResolver);
      (JavaUtilListClassName, listResolver);
      (DefaultTypedValueResolverName, defaultResolver) ].

(** The tail of [CastToArrayList] once the element is resolved. *)
Definition one_element (r : result value) : result (list value) :=
  match r with
  | Panic => Panic
  | Return _ (Some err) => Return [] (Some err)
  | Return v None => Return [v] None
  end.

(** [CastToArrayList] calls the resolver of the first generic type with no
    generic types; when that resolver is [listResolver], the call comes back
    here with the empty list, which is shorter. *)
Equations? CastToArrayList (reg : resolvers) (genericTypes : list string)
    (mimeV : MIMEValue) : result (list value) by wf (length genericTypes) lt :=
  CastToArrayList reg [] mimeV := Return [Value mimeV] None;
  CastToArrayList reg (typeClass :: _) mimeV
    with LoadTypedValueResolver reg typeClass := {
    | None => Panic
    | Some (Resolver resolver) => one_element (resolver typeClass [] mimeV)
    | Some listResolver =>
        one_element
          (match CastToArrayList reg [] mimeV with
           | Panic => Panic
           | Return l err => Return (VSlice l) err
           end)
  }.
Proof. simpl. lia. Defined.

(** A call [resolver(typeClass, genericTypes, value)] of a resolver of the
    registry. *)
Definition call (reg : resolvers) (resolver : TypedValueResolver)
    (typeClass : string) (genericTypes : list string) (value : MIMEValue)
  : result Go.value :=
  match resolver with
  | Resolver f => f typeClass genericTypes value
  | listResolver =>
      match CastToArrayList reg genericTypes value with
      | Panic => Panic
      | Return l err => Return (VSlice l) err
      end
  end.

(** Modelled from the spec: the function that resolves an argument is not
    among the sources; it looks up the resolver of the type-class name and
    calls it. *)
Definition resolve (reg : resolvers) (typeClassName : string)
    (genericTypeNames : list string) (mimeValue : MIMEValue)
  : result Go.value :=
  match LoadTypedValueResolver reg typeClassName with
  | None => Panic
  | Some resolver => call reg resolver typeClassName genericTypeNames mimeValue
  end.

End Resolvers.

End Support.

(** ** An instance of the libraries and of the names, for examples

    Decimal integers for the casts, queries with no escapes for
    [url.ParseQuery], the order of the keys for [range]; what the examples do
    not need fails with an error. *)

Module Sample.
Import Go Support.

Definition unsupported : error := errors_New "unsupported".

Definition is_digit (c : ascii) : bool :=
  (48 <=? nat_of_ascii c)%nat && (nat_of_ascii c <=? 57)%nat.

Fixpoint digits (s : string) (acc : Z) : option Z :=
  match s with
  | EmptyString => Some acc
  | String c rest =>
      if is_digit c
      then digits rest (10 * acc + Z.of_nat (nat_of_ascii c - 48))
      else None
  end.

(** A decimal integer: an optional sign and at least one digit. *)
Definition parse_decimal (s : string) : option Z :=
  match s with
  | EmptyString => None
  | String "-" (String c rest) => Z.opp <$> digits (String c rest) 0
  | String "+" (String c rest) => digits (String c rest) 0
  | _ => digits s 0
  end.

Definition ToIntE (i : value) : Z * option error :=
  match i with
  | VNil => (0, None)
  | VBool b => (if b then 1 else 0, None)
  | VInt z | VInt64 z => (z, None)
  | VString s =>
      match parse_decimal s with
      | Some z => (z, None)
      | None => (0, Some (fmt_Errorf "unable to cast to int"))
      end
  | _ => (0, Some (fmt_Errorf "unable to cast to int"))
  end.

Definition ToBoolE (i : value) : bool * option error :=
  match i with
  | VNil => (false, None)
  | VBool b => (b, None)
  | VInt z | VInt64 z => (negb (z =? 0), None)
  | _ => (false, Some (fmt_Errorf "unable to cast to bool"))
  end.

Definition ToStringE (i : value) : string * option error :=
  match i with
  | VNil => (EmptyString, None)
  | VString s | VBytes s => (s, None)
  | _ => (EmptyString, Some (fmt_Errorf "unable to cast to string"))
  end.

Definition ToStringMapE (i : value) : gmap string value * option error :=
  match i with
  | VStringMap m => (m, None)
  | _ => (∅, Some (fmt_Errorf "unable to cast to map[string]interface{}"))
  end.

(** The pieces of [s] between the separators [sep]. *)
Fixpoint split_on (sep : ascii) (s : string) : list string :=
  match s with
  | EmptyString => [EmptyString]
  | String c rest =>
      if Ascii.eqb c sep then EmptyString :: split_on sep rest
      else match split_on sep rest with
           | piece :: pieces => String c piece :: pieces
           | [] => [String c EmptyString]
           end
  end.

(** [strings.Cut] at the first [sep]. *)
Fixpoint cut (sep : ascii) (s : string) : string * string :=
  match s with
  | EmptyString => (EmptyString, EmptyString)
  | String c rest =>
      if Ascii.eqb c sep then (EmptyString, rest)
      else let '(before, after) := cut sep rest in (String c before, after)
  end.

Definition has_escape (s : string) : bool :=
  strings_Contains s "%" || strings_Contains s "+" || strings_Contains s ";".

Definition add_pair (m : Values) (pair : string) : Values :=
  if decide (pair = EmptyString) then m
  else let '(key, val) := cut "=" pair in
       <[key := default [] (m !! key) ++ [val]]> m.

Definition ParseQuery (query : string) : Values * option error :=
  if has_escape query then (∅, Some unsupported)
  else (foldl add_pair ∅ (split_on "&" query), None).

#[export] Instance library : Library := {|
  cast_ToIntE := ToIntE;
  cast_ToInt64E := ToIntE;
  cast_ToFloat32E := λ _, (0, Some unsupported);
  cast_ToFloat64E := λ _, (0, Some unsupported);
  cast_ToBoolE := ToBoolE;
  cast_ToStringE := ToStringE;
  cast_ToStringMapE := ToStringMapE;
  json_Marshal := λ _, (EmptyString, Some unsupported);
  json_Unmarshal := λ _, (∅, Some unsupported);
  url_ParseQuery := ParseQuery;
  range_Values := map_to_list;
  fmt_Sprintf := λ format _, format
|}.

#[export] Instance names : Names := {|
  ValueMIMETypeGoText := "go:text";
  ValueMIMETypeGoStringMap := "go:string-map";
  ValueMIMETypeGoObject := "go:object";
  JavaLangStringClassName := "java.lang.String";
  JavaLangIntegerClassName := "java.lang.Integer";
  JavaLangLongClassName := "java.lang.Long";
  JavaLangFloatClassName := "java.lang.Float";
  JavaLangDoubleClassName := "java.lang.Double";
  JavaLangBooleanClassName := "java.lang.Boolean";
  JavaUtilMapClassName := "java.util.Map";
  JavaUtilListClassName := "java.util.List";
  DefaultTypedValueResolverName := "$default"
|}.

(** What [url.ParseQuery] gives for the query a=1&a=2&b=3. *)
Definition example_values : Values := {[ "a" := ["1"; "2"]; "b" := ["3"] ]}.

(** A text written with apostrophes where it has double quotes. *)
Fixpoint text (s : string) : string :=
  match s with
  | EmptyString => EmptyString
  | String c rest =>
      String (if Ascii.eqb c "'"%char then dquote else c) (text rest)
  end.

End Sample.

(** ** Package [backend]: the dispatch by protocol *)

Module Dispatch.
Import Go Backend.

Section Dispatch.

(** The state of the world that a backend works on, and the two constants of
    [flux] that [DoInvoke] uses. *)
Variable W : Type.
Variable StatusServerError : Z.
Variable ErrorCodeGatewayInternal : string.

(** A [flux.Backend] by its [Invoke]: what it returns for a service in a
    state of the world, and the state it leaves. *)
Abbreviation backend :=
  (BackendService → W → (value * option StateError) * W) (only parsing).

(** Modelled from the spec: [ext.LoadBackend] is not among the sources; the
    backends are registered by protocol, one per protocol. *)
Definition LoadBackend (backends : gmap string backend) (proto : string)
  : option backend :=
  backends !! proto.

(** [DoInvoke(service, ctx)]; [fmt.Errorf] with the verb for a string gives
    the text of the format with the protocol in its place. *)
Definition DoInvoke (backends : gmap string backend)
    (service : BackendService) (w : W) : (value * option StateError) * W :=
  match LoadBackend backends (RpcProto service) with
  | None =>
      ((VNil,
        Some {| StatusCode := StatusServerError;
                ErrorCode := ErrorCodeGatewayInternal;
                Message := "GATEWAY:UNKNOWN_PROTOCOL";
                Internal := Some (fmt_Errorf ("unknown protocol:" +:+ RpcProto service)) |}),
       w)
  | Some backend => backend service w
  end.

(** Collaborators whose backend is [DoInvoke] over the registered backends;
    the other calls are answered by [e]. *)
Definition dispatching (backends : gmap string backend)
    (e : collaborators W) : collaborators W :=
  λ X c,
    match c in call X return W → X * W with
    | Invoke service => DoInvoke backends service
    | CtxEndpoint => e _ CtxEndpoint
    | LoadBackendResponseDecoder proto => e _ (LoadBackendResponseDecoder proto)
    | Decode d resp => e _ (Decode d resp)
    | SetStatusCode code => e _ (SetStatusCode code)
    | SetHeaders hs => e _ (SetHeaders hs)
    | SetBody b => e _ (SetBody b)
    end.

End Dispatch.

End Dispatch.

(** ** Package [filter]: the permission filter

    The filter works through the context, its cache of permissions and the
    handler that is next in the chain.  As for [DoExchange], each call to one
    of them is a [call], and a handler is the program of its calls. *)

Module Permission.
Import Go.

(** [flux.InvokeError], with the fields that the filter sets. *)
Record InvokeError : Type := mkInvokeError {
  StatusCode : Z;
  Message : string;
  Internal : option error
}.

(** What the filter reads of a [flux.Endpoint]. *)
Record Endpoint : Type := mkEndpoint {
  Authorize : bool;
  HttpMethod : string;
  HttpPattern : string
}.

(** The names and functions that the filter takes from the packages [flux],
    [pkg] and [fmt], whose declarations are not among the sources. *)
Class Flux : Type := {
  XJwtSubject : string;
  StatusBadRequest : Z;
  StatusAccessDenied : Z;
  StatusServerError : Z;
  OrderFilterPermissionVerification : Z;
  pkg_ToString : value → string;
  fmt_Sprintf : string → list value → string
}.

(** A function value or a cache, known by its name. *)
Abbreviation ref := nat (only parsing).

(** [permissionFilter]; a nil [provider] or [permCache] is [None]. *)
Record permissionFilter : Type := mkPermissionFilter {
  disabled : bool;
  provider : option ref;
  permCache : option ref
}.

(** The loader that [verify] gives to the cache: the provider, and the
    subject, method and pattern that the loader calls it with. *)
Record loader : Type := mkLoader {
  load_provider : option ref;
  load_subjectId : string;
  load_method : string;
  load_pattern : string
}.

(** The calls: [ctx.Endpoint()], [ctx.AttrValue(name)], [next(ctx)], and the
    call [cache.GetOrLoad(key, loader)] of the package [lakego], which is
    given a function of the filter and may call it back before it returns.
    What the filter sees of that call is written as three calls:
    [LoaderRuns cache key] is the number of times that the cache runs the
    loader, [Provider f subjectId method pattern] is a call of the function
    [p.provider] by the loader, and [GetOrLoad cache key load] is what the
    cache returns at the end. *)
Inductive call : Type → Type :=
| CtxEndpoint : call Endpoint
| CtxAttrValue (name : string) : call (value * bool)
| LoaderRuns (cache : ref) (key : string) : call nat
| Provider (f : ref) (subjectId method pattern : string)
    : call (bool * option error)
| GetOrLoad (cache : ref) (key : string) (load : loader)
    : call (value * option error)
| Next : call (option InvokeError).

(** A program: it returns, it panics, or it makes a call and goes on with
    what the call returned. *)
Inductive prog (R : Type) : Type :=
| Ret (r : R)
| Panic
| Do {X : Type} (c : call X) (k : X → prog R).

Arguments Ret {R} r.
Arguments Panic {R}.
Arguments Do {R X} c k.

Definition perform {X : Type} (c : call X) : prog X := Do c Ret.

Fixpoint bind {A B : Type} (k : A → prog B) (p : prog A) : prog B :=
  match p with
  | Ret a => k a
  | Panic => Panic
  | Do c k' => Do c (λ x, bind k (k' x))
  end.

#[export] Instance prog_bind : MBind prog := @bind.
#[export] Instance prog_ret : MRet prog := @Ret.

(** A [flux.FilterInvoker], run on the context of a request. *)
Abbreviation FilterInvoker := (prog (option InvokeError)) (only parsing).

Inductive event : Type :=
| Called {X : Type} (c : call X) (x : X).

Abbreviation collaborators W := (∀ X : Type, call X → W → X * W) (only parsing).

(** Running a program: [None] when it panics, else the result, the state of
    the world at the end and the calls in the order they were made. *)
Fixpoint run {W R : Type} (e : collaborators W) (p : prog R) (w : W)
  : option (R * W * list event) :=
  match p with
  | Ret r => Some (r, w, [])
  | Panic => None
  | Do c k =>
      let '(x, w1) := e _ c w in
      '(r, w2, t) ← run e (k x) w1;
      Some (r, w2, Called c x :: t)
  end.

(** The calls to the next handler. *)
Definition is_next (ev : event) : bool :=
  match ev with
  | Called Next _ => true
  | Called _ _ => false
  end.

(** The loader closure of [verify], [func(_ lakego.Key) (lakego.Value, error)]:
    it calls [p.provider], and the call of a nil function panics. *)
Definition call_loader (l : loader) : prog (bool * option error) :=
  match load_provider l with
  | None => Panic
  | Some f =>
      perform (Provider f (load_subjectId l) (load_method l) (load_pattern l))
  end.

(** The cache running the loader [n] times; what it does with the results is
    its own. *)
Fixpoint loading (l : loader) (n : nat) : prog unit :=
  match n with
  | O => mret tt
  | S n => _ ← call_loader l; loading l n
  end.

Section Filter.

Context {F : Flux}.

Definition ErrPermissionSubjectNotFound : InvokeError :=
  {| StatusCode := StatusBadRequest;
     Message := "PERMISSION:SUBJECT_NOT_FOUND";
     Internal := None |}.

Definition ErrPermissionSubjectAccessDenied : InvokeError :=
  {| StatusCode := StatusAccessDenied;
     Message := "PERMISSION:SUBJECT_ACCESS_DENIED";
     Internal := None |}.

Definition Order (p : permissionFilter) : Z := OrderFilterPermissionVerification.

(** [verify].  The call of the method of a nil cache panics, and so does
    the loader on a nil [p.provider], each time that the cache runs it. *)
Definition verify (p : permissionFilter) : FilterInvoker :=
  '(jwtSubjectId, ok) ← perform (CtxAttrValue XJwtSubject);
  if negb ok then mret (Some ErrPermissionSubjectNotFound)
  else
    endpoint ← perform CtxEndpoint;
    let permKey :=
      fmt_Sprintf "%s@%s#%s"
        [jwtSubjectId; VString (HttpMethod endpoint); VString (HttpPattern endpoint)] in
    match permCache p with
    | None => Panic
    | Some cache =>
        let load := mkLoader (provider p) (pkg_ToString jwtSubjectId)
                      (HttpMethod endpoint) (HttpPattern endpoint) in
        runs ← perform (LoaderRuns cache permKey);
        _ ← loading load runs;
        '(allowed, err) ← perform (GetOrLoad cache permKey load);
        match err with
        | None =>
            match allowed with
            | VBool true => mret None
            | _ => mret (Some ErrPermissionSubjectAccessDenied)
            end
        | Some err =>
            mret (Some {| StatusCode := StatusServerError;
                          Message := "PERMISSION:LOAD_ACCESS";
                          Internal := Some err |})
        end
    end.

(** [Invoke]: the handler that wraps [next]. *)
Definition Invoke (p : permissionFilter) (next : FilterInvoker) : FilterInvoker :=
  if disabled p then next
  else
    endpoint ← perform CtxEndpoint;
    if negb (Authorize endpoint) then next
    else
      err ← verify p;
      match err with
      | Some err => mret (Some err)
      | None => next
      end.

End Filter.

End Permission.

(** ** Properties of the filter registry *)

Module ExtSpec.
Import Ext.

(** Inversion of a bind that returned: its first computation returned too. *)
Ltac bind_inv H x E :=
  match type of H with
  | (?m ≫= _) = Some _ => destruct m as [x|] eqn:E; simpl in H; [|discriminate H]
  end.

Lemma checkedAppendFilter_Some v inp out :
  _checkedAppendFilter v inp = Some out →
  ∃ f, v = AFilter f ∧ out = inp ++ [mkWrapper f (filterOrder f)].
Proof.
  unfold _checkedAppendFilter. destruct v as [|o|f]; simpl; try discriminate.
  intros [= <-]. by exists f.
Qed.

Lemma checkedAppendFilter_filter f inp :
  _checkedAppendFilter (AFilter f) inp = Some (inp ++ [mkWrapper f (filterOrder f)]).
Proof. reflexivity. Qed.

(** The stored order of every wrapper is the order of its filter. *)
Definition consistent (s : filterArray) : Prop :=
  Forall (λ w, order w = filterOrder (filter w)) s.

(** No later wrapper has a smaller stored order than an earlier one. *)
Definition ascending (s : filterArray) : Prop :=
  ∀ (i j : nat) a b, (i ≤ j)%nat → s !! i = Some a → s !! j = Some b →
    order a ≤ order b.

Lemma ascending_nil : ascending [].
Proof. intros i j a b _ Hi. by destruct i. Qed.

Lemma consistent_ascending_nondecreasing s :
  consistent s → ascending s → nondecreasing (_getFilters s).
Proof.
  intros Hc Ha i j a b Hij Hi Hj. unfold _getFilters in *.
  rewrite list_lookup_fmap in Hi, Hj.
  apply fmap_Some in Hi as (wa & Ei & ->).
  apply fmap_Some in Hj as (wb & Ej & ->).
  unfold consistent in Hc. rewrite Forall_lookup in Hc.
  rewrite <- (Hc _ _ Ei), <- (Hc _ _ Ej). eauto.
Qed.

Lemma nondecreasing_placed_before l (g f : Filter) :
  nondecreasing l → g ∈ l → f ∈ l → filterOrder g < filterOrder f →
  placed_before g f l.
Proof.
  intros Hl Hg Hf Hlt. repeat split; try done.
  intros i j Hj Hi. destruct (decide (j < i)%nat) as [|Hge]; [done|].
  assert (filterOrder f ≤ filterOrder g) by (apply (Hl i j); [lia|done..]).
  lia.
Qed.

Section Registry.

Variable sort_Sort : filterArray → filterArray.
Hypothesis sort_Sort_sorts : sorts sort_Sort.

Lemma sort_Sort_Permutation s : sort_Sort s ≡ₚ s.
Proof. apply sort_Sort_sorts. Qed.

Lemma sort_Sort_ascending s : ascending (sort_Sort s).
Proof.
  intros i j a b Hij Hi Hj.
  destruct (decide (i = j)) as [->|Hne].
  { assert (a = b) as -> by congruence. lia. }
  destruct sort_Sort_sorts as [_ Hs].
  assert (Hlt : (i < j < Len (sort_Sort s))%nat).
  { split; [lia|]. unfold Len. by eapply lookup_lt_Some. }
  specialize (Hs s i j Hlt). unfold Less in Hs. rewrite Hi, Hj in Hs.
  injection Hs as Hs. apply Z.ltb_ge in Hs. done.
Qed.

Lemma sort_Sort_consistent s : consistent s → consistent (sort_Sort s).
Proof. unfold consistent. by rewrite sort_Sort_Permutation. Qed.

(** What holds of the registry after every registration. *)
Definition settled (r : registry) : Prop :=
  (consistent (_globalFilter r) ∧ ascending (_globalFilter r)) ∧
  (consistent (_selectiveFilter r) ∧ ascending (_selectiveFilter r)).

Lemma settled_initial : settled initial.
Proof. repeat split; try apply ascending_nil; constructor. Qed.

Lemma append_consistent f s :
  consistent s → consistent (s ++ [mkWrapper f (filterOrder f)]).
Proof. intros Hs. apply Forall_app; split; [done|]. by constructor. Qed.

Lemma step_settled r c r' :
  settled r → step sort_Sort r c = Some r' → settled r'.
Proof.
  intros [[Hgc Hga] [Hsc Hsa]] Hstep. destruct c as [v|v]; simpl in Hstep.
  - unfold StoreGlobalFilter in Hstep.
    bind_inv Hstep g E. injection Hstep as <-.
    apply checkedAppendFilter_Some in E as (f & -> & ->).
    repeat split; simpl; auto using sort_Sort_ascending,
      sort_Sort_consistent, append_consistent.
  - unfold StoreSelectiveFilter in Hstep.
    bind_inv Hstep g E. injection Hstep as <-.
    apply checkedAppendFilter_Some in E as (f & -> & ->).
    repeat split; simpl; auto using sort_Sort_ascending,
      sort_Sort_consistent, append_consistent.
Qed.

Lemma run_settled cs : ∀ r r',
  settled r → run sort_Sort cs r = Some r' → settled r'.
Proof.
  induction cs as [|c cs IH]; intros r r' Hr Hrun; simpl in Hrun.
  - by injection Hrun as <-.
  - bind_inv Hrun r1 E. eauto using step_settled.
Qed.

Lemma run_app cs1 cs2 r :
  run sort_Sort (cs1 ++ cs2) r = r1 ← run sort_Sort cs1 r; run sort_Sort cs2 r1.
Proof.
  revert r. induction cs1 as [|c cs1 IH]; intros r; simpl; [done|].
  destruct (step sort_Sort r c); simpl; auto.
Qed.

(** A registration keeps every filter registered before it, and adds its
    own to the sequence it names. *)
Lemma getFilters_sorted_append s f :
  _getFilters (sort_Sort (s ++ [mkWrapper f (filterOrder f)]))
  ≡ₚ _getFilters s ++ [f].
Proof.
  unfold _getFilters. rewrite sort_Sort_Permutation. by rewrite fmap_app.
Qed.

Lemma step_keeps r c r' f :
  step sort_Sort r c = Some r' →
  (f ∈ LoadGlobalFilters r → f ∈ LoadGlobalFilters r') ∧
  (f ∈ LoadSelectiveFilters r → f ∈ LoadSelectiveFilters r').
Proof.
  intros Hstep. destruct c as [v|v]; simpl in Hstep.
  - unfold StoreGlobalFilter in Hstep.
    bind_inv Hstep g E. injection Hstep as <-.
    apply checkedAppendFilter_Some in E as (f' & -> & ->).
    unfold LoadGlobalFilters, LoadSelectiveFilters; simpl. split; [|done].
    rewrite getFilters_sorted_append, elem_of_app. by left.
  - unfold StoreSelectiveFilter in Hstep.
    bind_inv Hstep g E. injection Hstep as <-.
    apply checkedAppendFilter_Some in E as (f' & -> & ->).
    unfold LoadGlobalFilters, LoadSelectiveFilters; simpl. split; [done|].
    rewrite getFilters_sorted_append, elem_of_app. by left.
Qed.

Lemma run_keeps cs : ∀ r r' f,
  run sort_Sort cs r = Some r' →
  (f ∈ LoadGlobalFilters r → f ∈ LoadGlobalFilters r') ∧
  (f ∈ LoadSelectiveFilters r → f ∈ LoadSelectiveFilters r').
Proof.
  induction cs as [|c cs IH]; intros r r' f Hrun; simpl in Hrun.
  - by injection Hrun as <-.
  - bind_inv Hrun r1 E.
    destruct (step_keeps _ _ _ f E), (IH _ _ f Hrun). auto.
Qed.

Lemma StoreGlobalFilter_adds f r r' :
  StoreGlobalFilter sort_Sort (AFilter f) r = Some r' →
  f ∈ LoadGlobalFilters r'.
Proof.
  unfold StoreGlobalFilter. rewrite checkedAppendFilter_filter. simpl.
  intros [= <-]. unfold LoadGlobalFilters; simpl.
  rewrite getFilters_sorted_append, elem_of_app, list_elem_of_singleton.
  by right.
Qed.

Lemma StoreSelectiveFilter_adds f r r' :
  StoreSelectiveFilter sort_Sort (AFilter f) r = Some r' →
  f ∈ LoadSelectiveFilters r'.
Proof.
  unfold StoreSelectiveFilter. rewrite checkedAppendFilter_filter. simpl.
  intros [= <-]. unfold LoadSelectiveFilters; simpl.
  rewrite getFilters_sorted_append, elem_of_app, list_elem_of_singleton.
  by right.
Qed.

(** Registrations of filters never panic. *)
Definition registers_filter (c : call) : Prop :=
  match c with
  | CallStoreGlobalFilter (AFilter _) | CallStoreSelectiveFilter (AFilter _) => True
  | _ => False
  end.

Lemma run_total cs : ∀ r,
  Forall registers_filter cs → is_Some (run sort_Sort cs r).
Proof.
  induction cs as [|c cs IH]; intros r Hcs; simpl; [by eexists|].
  inversion Hcs as [|? ? Hc Hcs']; subst.
  destruct c as [[| |f]|[| |f]]; simpl in Hc; try done; simpl; apply IH, Hcs'.
Qed.

Lemma run_registered cs : ∀ r r' f,
  run sort_Sort cs r = Some r' →
  (CallStoreGlobalFilter (AFilter f) ∈ cs → f ∈ LoadGlobalFilters r') ∧
  (CallStoreSelectiveFilter (AFilter f) ∈ cs → f ∈ LoadSelectiveFilters r').
Proof.
  induction cs as [|c cs IH]; intros r r' f Hrun; simpl in Hrun.
  - split; intros H; by apply elem_of_nil in H.
  - bind_inv Hrun r1 E. destruct (IH _ _ f Hrun) as [IHg IHs].
    destruct (run_keeps _ _ _ f Hrun) as [Kg Ks].
    split; intros [<-|Hin]%elem_of_cons; auto; simpl in E.
    + eauto using StoreGlobalFilter_adds.
    + eauto using StoreSelectiveFilter_adds.
Qed.

(** [c2] is registered by [cs] at some point after [c1]. *)
Definition registered_after (c2 c1 : call) (cs : list call) : Prop :=
  ∃ cs1 cs2, cs = cs1 ++ c1 :: cs2 ∧ c2 ∈ cs2.

Lemma registered_after_elem c2 c1 cs :
  registered_after c2 c1 cs → c1 ∈ cs ∧ c2 ∈ cs.
Proof.
  intros (cs1 & cs2 & -> & Hin). rewrite !elem_of_app, !elem_of_cons. auto.
Qed.

(** C1.  After any sequence of registrations through [StoreGlobalFilter] and
    [StoreSelectiveFilter] that has not panicked, [LoadGlobalFilters] and
    [LoadSelectiveFilters] return their filters in non-decreasing order of
    the filters' order values (0 for a filter that is no [Orderer]).  In
    particular a filter of order -5 registered after a filter of order 0
    stands before it in the list that is returned. *)
Theorem registered_filters_load_in_order (cs : list call) (r : registry) :
  run sort_Sort cs initial = Some r →
  nondecreasing (LoadGlobalFilters r) ∧
  nondecreasing (LoadSelectiveFilters r) ∧
  (∀ f g : Filter, filterOrder f = 0 → filterOrder g = -5 →
     (registered_after (CallStoreGlobalFilter (AFilter g))
                       (CallStoreGlobalFilter (AFilter f)) cs →
      placed_before g f (LoadGlobalFilters r)) ∧
     (registered_after (CallStoreSelectiveFilter (AFilter g))
                       (CallStoreSelectiveFilter (AFilter f)) cs →
      placed_before g f (LoadSelectiveFilters r))).
Proof.
  intros Hrun.
  destruct (run_settled _ _ _ settled_initial Hrun) as [[Hgc Hga] [Hsc Hsa]].
  assert (Hg : nondecreasing (LoadGlobalFilters r))
    by (by apply consistent_ascending_nondecreasing).
  assert (Hs : nondecreasing (LoadSelectiveFilters r))
    by (by apply consistent_ascending_nondecreasing).
  split; [done|]. split; [done|].
  intros f g Hf Hg5. split; intros [Hfin Hgin]%registered_after_elem.
  - apply nondecreasing_placed_before; [done| | |lia].
    + by apply (run_registered _ _ _ g Hrun).
    + by apply (run_registered _ _ _ f Hrun).
  - apply nondecreasing_placed_before; [done| | |lia].
    + by apply (run_registered _ _ _ g Hrun).
    + by apply (run_registered _ _ _ f Hrun).
Qed.

End Registry.

(** The reference sort meets the postcondition of [sort.Sort]. *)
#[local] Instance order_le_trans : Transitive order_le.
Proof. intros a b c. unfold order_le. lia. Qed.

#[local] Instance order_le_total : Total order_le.
Proof. intros a b. unfold order_le. lia. Qed.

Lemma StronglySorted_lookup_lt {A} (R : relation A) (l : list A) :
  StronglySorted R l →
  ∀ (i j : nat) a b, (i < j)%nat → l !! i = Some a → l !! j = Some b → R a b.
Proof.
  induction 1 as [|x l Hl IH Hx]; intros i j a b Hij Hi Hj.
  - by destruct i.
  - destruct j as [|j]; [lia|]. simpl in Hj. destruct i as [|i]; simpl in Hi.
    + injection Hi as <-. rewrite Forall_forall in Hx.
      apply Hx. rewrite list_elem_of_lookup. eauto.
    + apply (IH i j); [lia|done..].
Qed.

Lemma reference_sort_sorts : sorts reference_sort.
Proof.
  split.
  - intros s. apply merge_sort_Permutation.
  - intros s i j [Hij Hj]. unfold Less, Len in *.
    destruct (lookup_lt_is_Some_2 (reference_sort s) j Hj) as [b Eb].
    destruct (lookup_lt_is_Some_2 (reference_sort s) i) as [a Ea]; [lia|].
    rewrite Ea, Eb. f_equal. apply Z.ltb_ge.
    apply (StronglySorted_lookup_lt order_le (reference_sort s)
             (StronglySorted_merge_sort order_le s) i j a b Hij Ea Eb).
Qed.

(** Two filters: one that is no [Orderer], one of order -5. *)
Definition plain_filter : Filter := mkFilter 1 "plain" None.
Definition early_filter : Filter := mkFilter 2 "early" (Some (-5)).

Definition example_calls : list call :=
  [CallStoreGlobalFilter (AFilter plain_filter);
   CallStoreSelectiveFilter (AFilter plain_filter);
   CallStoreGlobalFilter (AFilter early_filter);
   CallStoreSelectiveFilter (AFilter early_filter)].

Definition example_registry : registry :=
  mkRegistry [mkWrapper early_filter (-5); mkWrapper plain_filter 0]
             [mkWrapper early_filter (-5); mkWrapper plain_filter 0].

Example example_run :
  run reference_sort example_calls initial = Some example_registry.
Proof. vm_compute. reflexivity. Qed.

Example example_load :
  LoadGlobalFilters example_registry = [early_filter; plain_filter].
Proof. reflexivity. Qed.

Lemma registered_filters_load_in_order_witness :
  run reference_sort example_calls initial = Some example_registry ∧
  nondecreasing (LoadGlobalFilters example_registry) ∧
  nondecreasing (LoadSelectiveFilters example_registry) ∧
  placed_before early_filter plain_filter (LoadGlobalFilters example_registry).
Proof.
  assert (Hrun : run reference_sort example_calls initial = Some example_registry)
    by (vm_compute; reflexivity).
  split; [exact Hrun|].
  destruct (registered_filters_load_in_order reference_sort reference_sort_sorts
              example_calls example_registry Hrun) as (Hg & Hs & Hp).
  split; [exact Hg|]. split; [exact Hs|].
  apply (proj1 (Hp plain_filter early_filter eq_refl eq_refl)).
  exists [], [CallStoreSelectiveFilter (AFilter plain_filter);
              CallStoreGlobalFilter (AFilter early_filter);
              CallStoreSelectiveFilter (AFilter early_filter)].
  split; [reflexivity|]. apply elem_of_cons; right. apply elem_of_cons; by left.
Defined.

End ExtSpec.

(** ** Properties of the registry in memory *)

Module ExtMemSpec.
Import ExtMem.

Lemma make_fresh n h : ptr (make n h).1 ∉ dom h.
Proof. apply is_fresh. Qed.

Lemma make_heap n h :
  (make n h).2 !! ptr (make n h).1 = Some (FilterArray (replicate n None)).
Proof. apply lookup_insert_eq. Qed.

(** Writing an array of filters where there was no array of wrappers leaves
    every slice of wrappers as it was. *)
Lemma wrappers_insert_FilterArray h l fs s :
  (∀ ws, h !! l ≠ Some (WrapperArray ws)) →
  wrappers (<[l := FilterArray fs]> h) s = wrappers h s.
Proof.
  intros Hl. unfold wrappers. destruct (decide (l = ptr s)) as [->|Hne].
  - rewrite lookup_insert_eq. destruct (h !! ptr s) as [[ws|fs']|] eqn:E; try done.
    by destruct (Hl ws).
  - by rewrite lookup_insert_ne.
Qed.

Lemma filters_insert h l fs n c :
  (n ≤ length fs)%nat →
  filters (<[l := FilterArray fs]> h) (mkSlice l n c) = Some (take n fs).
Proof.
  intros Hn. unfold filters; simpl. rewrite lookup_insert_eq.
  by rewrite decide_True.
Qed.

Lemma store_Some s i x h fs :
  h !! ptr s = Some (FilterArray fs) → (i < len s ≤ length fs)%nat →
  store s i x h = Some (<[ptr s := FilterArray (<[i := x]> fs)]> h).
Proof. intros E Hi. unfold store. rewrite E. by rewrite decide_True. Qed.

Lemma store_inv s i x h h' :
  store s i x h = Some h' →
  ∃ fs, h !! ptr s = Some (FilterArray fs) ∧ (i < len s ≤ length fs)%nat ∧
        h' = <[ptr s := FilterArray (<[i := x]> fs)]> h.
Proof.
  unfold store. destruct (h !! ptr s) as [[ws|fs]|]; try discriminate.
  case_decide; [|discriminate]. intros [= <-]. eauto.
Qed.

(** The loop overwrites the elements from [i] on with the filters of the
    wrappers it ranges over. *)
Lemma range_store_spec out inp : ∀ i h fs,
  h !! ptr out = Some (FilterArray fs) →
  (i + length inp ≤ len out ≤ length fs)%nat →
  range_store out i inp h =
    Some (<[ptr out := FilterArray
              (take i fs ++ (Some ∘ Ext.filter <$> inp)
                 ++ drop (i + length inp) fs)]> h).
Proof.
  induction inp as [|v inp IH]; intros i h fs E Hi; simpl in *.
  - rewrite Nat.add_0_r, take_drop. by rewrite insert_id.
  - rewrite (store_Some _ _ _ _ fs) by (done || lia). simpl.
    rewrite (IH (S i) _ (<[i := Some (Ext.filter v)]> fs));
      [|by rewrite lookup_insert_eq|rewrite length_insert; lia].
    rewrite insert_insert_eq. do 3 f_equal.
    rewrite take_S_r with (x := Some (Ext.filter v))
      by (apply list_lookup_insert_eq; lia).
    rewrite take_insert_ge by lia. rewrite drop_insert_lt by lia.
    rewrite <- app_assoc. simpl. by rewrite Nat.add_succ_r.
Qed.

(** [_getFilters] allocates one array, at the first address not in use, and
    fills it with the filters of the wrappers; it panics only when its
    argument is no readable slice of wrappers. *)
Lemma getFilters_spec inp h :
  _getFilters inp h =
    ws ← wrappers h inp;
    Some (mkSlice (fresh (dom h)) (length ws) (length ws),
          <[fresh (dom h) := FilterArray (Some ∘ Ext.filter <$> ws)]> h).
Proof.
  unfold _getFilters. destruct (wrappers h inp) as [ws|]; simpl; [|done].
  rewrite (range_store_spec _ ws 0 _ (replicate (length ws) None)); simpl.
  - rewrite insert_insert_eq. rewrite drop_ge by (rewrite length_replicate; lia).
    by rewrite app_nil_r.
  - apply lookup_insert_eq.
  - rewrite length_replicate. lia.
Qed.

Lemma fresh_not_wrappers (h : gmap loc array) ws :
  h !! fresh (dom h) ≠ Some (WrapperArray ws).
Proof.
  intros E. apply (is_fresh (dom h)). apply elem_of_dom. by eexists.
Qed.

(** What a load returns is the filters of the wrappers of its sequence. *)
Lemma returned_getFilters inp m :
  returned (in_memory m (_getFilters inp (heap m)))
  = unwrapped <$> wrappers (heap m) inp.
Proof.
  rewrite getFilters_spec. set (h := heap m). destruct (wrappers h inp) as [ws|]; simpl; [|done].
  rewrite filters_insert by (by rewrite length_fmap).
  rewrite firstn_all2 by (by rewrite length_fmap). done.
Qed.

Lemma returned_load q m :
  returned (load q m) =
  unwrapped <$> wrappers (heap m)
    (match q with Global => _globalFilter m | Selective => _selectiveFilter m end).
Proof. destruct q; apply returned_getFilters. Qed.

(** The load in memory returns what the load on the contents returns. *)
Lemma load_refines m r :
  holds m r →
  returned (LoadGlobalFilters m) = Some (Some <$> Ext.LoadGlobalFilters r) ∧
  returned (LoadSelectiveFilters m) = Some (Some <$> Ext.LoadSelectiveFilters r).
Proof.
  intros [Hg Hs]. rewrite (returned_load Global), (returned_load Selective).
  rewrite Hg, Hs. simpl. unfold Ext.LoadGlobalFilters, Ext.LoadSelectiveFilters,
    Ext._getFilters, unwrapped. by rewrite !list_fmap_compose.
Qed.

Lemma load_inv q m out m1 :
  load q m = Some (out, m1) →
  ∃ ws, ptr out = fresh (dom (heap m)) ∧ len out = length ws ∧
        heap m1 = <[ptr out := FilterArray (Some ∘ Ext.filter <$> ws)]> (heap m) ∧
        _globalFilter m1 = _globalFilter m ∧
        _selectiveFilter m1 = _selectiveFilter m.
Proof.
  destruct q; simpl; unfold LoadGlobalFilters, LoadSelectiveFilters, in_memory;
    rewrite getFilters_spec;
    (destruct (wrappers _ _) as [ws|]; simpl; [|discriminate]);
    intros [= <- <-]; exists ws; done.
Qed.

(** C10.  [LoadGlobalFilters] and [LoadSelectiveFilters] return a freshly
    allocated array on every call.  Whatever a caller then assigns to an
    element of the array it was given, the two package variables and the
    wrappers they hold are as before, every later load returns what it would
    have returned (in an array of its own), and [LoadSelectiveFilter] finds
    what it would have found. *)
Theorem loaded_array_is_fresh (q : sequence) (m m1 m2 : memory) (out : slice)
    (i : nat) (x : option Ext.Filter) :
  load q m = Some (out, m1) →
  assign out i x m1 = Some m2 →
  (ptr out ∉ dom (heap m)) ∧
  filters (heap m2) out = (λ fs, <[i := x]> fs) <$> filters (heap m1) out ∧
  _globalFilter m2 = _globalFilter m ∧
  _selectiveFilter m2 = _selectiveFilter m ∧
  (∀ s, wrappers (heap m2) s = wrappers (heap m) s) ∧
  (∀ q', returned (load q' m2) = returned (load q' m) ∧
         ∀ out' m3, load q' m2 = Some (out', m3) → ptr out' ≠ ptr out) ∧
  (∀ filterId, LoadSelectiveFilter filterId m2 = LoadSelectiveFilter filterId m).
Proof.
  intros Hload Hassign.
  destruct (load_inv _ _ _ _ Hload) as (ws & Hptr & Hlen & Hheap & Hg & Hs).
  unfold assign in Hassign.
  destruct (store out i x (heap m1)) as [h2|] eqn:Hstore; [|discriminate].
  injection Hassign as <-. simpl.
  destruct (store_inv _ _ _ _ _ Hstore) as (fs & Hfs & Hi & ->).
  rewrite Hheap, lookup_insert_eq in Hfs. injection Hfs as <-.
  rewrite Hheap, insert_insert_eq.
  assert (Hw : ∀ s, wrappers
             (<[ptr out := FilterArray (<[i := x]> (Some ∘ Ext.filter <$> ws))]>
                (heap m)) s = wrappers (heap m) s).
  { intros s. apply wrappers_insert_FilterArray. intros ws'. rewrite Hptr.
    apply fresh_not_wrappers. }
  split; [rewrite Hptr; apply is_fresh|].
  split.
  { unfold filters. rewrite !lookup_insert_eq, length_insert.
    case_decide; [|done]. simpl. by rewrite take_insert_lt by lia. }
  split; [done|]. split; [done|]. split; [done|]. split.
  - intros q'. split.
    + rewrite !returned_load. simpl. rewrite Hg, Hs. by destruct q'; rewrite Hw.
    + intros out' m3 Hload'.
      destruct (load_inv _ _ _ _ Hload') as (ws' & Hptr' & _). simpl in Hptr'.
      intros Heq. apply (is_fresh (dom
        (<[ptr out := FilterArray (<[i := x]> (Some ∘ Ext.filter <$> ws))]>
           (heap m)))).
      rewrite <- Hptr', Heq. apply elem_of_dom. rewrite lookup_insert_eq. by eexists.
  - intros filterId. unfold LoadSelectiveFilter. simpl. by rewrite Hs, Hw.
Qed.

(** A memory that holds [ExtSpec.example_registry], the array a load
    returns from it, and a caller that sets the first element to nil. *)
Definition example_memory : memory :=
  mkMemory {[ 1%positive := WrapperArray (Ext._globalFilter ExtSpec.example_registry);
              2%positive := WrapperArray (Ext._selectiveFilter ExtSpec.example_registry) ]}
           (mkSlice 1 2 2) (mkSlice 2 2 2).

Definition example_loaded : slice := mkSlice 3 2 2.

Definition example_memory_loaded : memory :=
  mkMemory (<[ 3%positive := FilterArray [Some ExtSpec.early_filter;
                                         Some ExtSpec.plain_filter] ]>
              (heap example_memory))
           (mkSlice 1 2 2) (mkSlice 2 2 2).

Definition example_memory_assigned : memory :=
  mkMemory (<[ 3%positive := FilterArray [None; Some ExtSpec.plain_filter] ]>
              (heap example_memory))
           (mkSlice 1 2 2) (mkSlice 2 2 2).

Example example_memory_holds : holds example_memory ExtSpec.example_registry.
Proof. split; reflexivity. Qed.

Example example_LoadGlobalFilters :
  LoadGlobalFilters example_memory = Some (example_loaded, example_memory_loaded).
Proof. vm_compute. reflexivity. Qed.

Example example_assign :
  assign example_loaded 0 None example_memory_loaded
  = Some example_memory_assigned.
Proof. vm_compute. reflexivity. Qed.

Lemma loaded_array_is_fresh_witness :
  load Global example_memory = Some (example_loaded, example_memory_loaded) ∧
  assign example_loaded 0 None example_memory_loaded
    = Some example_memory_assigned ∧
  returned (LoadGlobalFilters example_memory_assigned)
    = returned (LoadGlobalFilters example_memory) ∧
  LoadSelectiveFilter "early" example_memory_assigned
    = LoadSelectiveFilter "early" example_memory.
Proof.
  assert (H1 : load Global example_memory
               = Some (example_loaded, example_memory_loaded))
    by (vm_compute; reflexivity).
  assert (H2 : assign example_loaded 0 None example_memory_loaded
               = Some example_memory_assigned)
    by (vm_compute; reflexivity).
  split; [exact H1|]. split; [exact H2|].
  destruct (loaded_array_is_fresh Global _ _ _ _ _ _ H1 H2)
    as (_ & _ & _ & _ & _ & Hq & Hid).
  split; [exact (proj1 (Hq Global))|exact (Hid "early")].
Defined.

End ExtMemSpec.

(** ** Properties of the exchange *)

Module BackendSpec.
Import Go Backend.

Lemma run_perform {W R X : Type} (e : collaborators W) (c : call X)
    (k : X → prog R) (w : W) :
  run e (perform c ≫= k) w =
    let '(x, w1) := e _ c w in
    let '(r, w2, t) := run e (k x) w1 in
    (r, w2, Called c x :: t).
Proof. reflexivity. Qed.

Lemma run_ret {W R : Type} (e : collaborators W) (r : R) (w : W) :
  run e (mret r) w = (r, w, []).
Proof. reflexivity. Qed.

Section Exchange.

Variable StatusServerError : Z.
Variable ErrorCodeGatewayInternal : string.
Variable W : Type.
Variable e : collaborators W.

Local Abbreviation DoExchange :=
  (Backend.DoExchange StatusServerError ErrorCodeGatewayInternal).
Local Abbreviation ErrBackendResponseDecoderNotFound :=
  (Backend.ErrBackendResponseDecoderNotFound StatusServerError
     ErrorCodeGatewayInternal).

(** C2.  When the backend returns a raw response and no error, a decoder is
    registered for the protocol of the endpoint and it decodes without error,
    [DoExchange] calls [SetStatusCode], [SetHeaders] and [SetBody] with what
    the decoder returned, in that order and after everything else, and
    returns nil. *)
Theorem exchange_writes_decoded_response
    (w w1 w2 w3 w4 : W) (ep : Endpoint) (resp : value) (d : decoder)
    (code : Z) (hs : Values) (b : value) :
  e _ CtxEndpoint w = (ep, w1) →
  e _ (Invoke (Service ep)) w1 = ((resp, None), w2) →
  e _ (LoadBackendResponseDecoder (RpcProto (Service ep))) w2 = (Some d, w3) →
  e _ (Decode d resp) w3 = ((code, hs, b, None), w4) →
  let w5 := (e _ (SetStatusCode code) w4).2 in
  let w6 := (e _ (SetHeaders hs) w5).2 in
  let w7 := (e _ (SetBody b) w6).2 in
  run e DoExchange w =
    (None, w7,
     [Called CtxEndpoint ep;
      Called (Invoke (Service ep)) (resp, None);
      Called (LoadBackendResponseDecoder (RpcProto (Service ep))) (Some d);
      Called (Decode d resp) (code, hs, b, None);
      Called (SetStatusCode code) tt;
      Called (SetHeaders hs) tt;
      Called (SetBody b) tt]).
Proof.
  intros H1 H2 H3 H4 w5 w6 w7. subst w5 w6 w7.
  unfold Backend.DoExchange.
  rewrite run_perform, H1. rewrite run_perform, H2.
  rewrite run_perform, H3. rewrite run_perform, H4.
  rewrite run_perform. destruct (e _ (SetStatusCode code) w4) as [[] w5]. simpl.
  destruct (e _ (SetHeaders hs) w5) as [[] w6]. simpl.
  destruct (e _ (SetBody b) w6) as [[] w7]. reflexivity.
Qed.

(** The calls of a run that write the outward response. *)
Definition setter_calls (t : list event) : list event :=
  List.filter is_setter t.

(** C3.  [DoExchange] writes the response only on the full success of the
    invocation and of the decoding, and it swallows no failure.  An error of
    the backend is returned as it is; a decoder that is not registered gives
    the fixed error; an error of the decoder is returned as the [Internal]
    cause of the error that wraps it; and in each of the three cases the run
    ends there, with no call of [SetStatusCode], [SetHeaders] or [SetBody].
    Conversely, a run that returns an error has called no setter and its
    error is one of these three; and a run that has called a setter has
    returned nil, after the backend answered with no error, a decoder was
    found and it decoded with no error. *)
Theorem exchange_error_leaves_response (w : W) :
  (∀ ep w1 resp err w2,
     e _ CtxEndpoint w = (ep, w1) →
     e _ (Invoke (Service ep)) w1 = ((resp, Some err), w2) →
     run e DoExchange w =
       (Some err, w2,
        [Called CtxEndpoint ep;
         Called (Invoke (Service ep)) (resp, Some err)])) ∧
  (∀ ep w1 resp w2 w3,
     e _ CtxEndpoint w = (ep, w1) →
     e _ (Invoke (Service ep)) w1 = ((resp, None), w2) →
     e _ (LoadBackendResponseDecoder (RpcProto (Service ep))) w2 = (None, w3) →
     run e DoExchange w =
       (Some ErrBackendResponseDecoderNotFound, w3,
        [Called CtxEndpoint ep;
         Called (Invoke (Service ep)) (resp, None);
         Called (LoadBackendResponseDecoder (RpcProto (Service ep))) None])) ∧
  (∀ ep w1 resp w2 d w3 code hs b cause w4,
     e _ CtxEndpoint w = (ep, w1) →
     e _ (Invoke (Service ep)) w1 = ((resp, None), w2) →
     e _ (LoadBackendResponseDecoder (RpcProto (Service ep))) w2 = (Some d, w3) →
     e _ (Decode d resp) w3 = ((code, hs, b, Some cause), w4) →
     run e DoExchange w =
       (Some {| StatusCode := StatusServerError;
                ErrorCode := ErrorCodeGatewayInternal;
                Message := "BACKEND:DECODE_RESPONSE";
                Internal := Some cause |},
        w4,
        [Called CtxEndpoint ep;
         Called (Invoke (Service ep)) (resp, None);
         Called (LoadBackendResponseDecoder (RpcProto (Service ep))) (Some d);
         Called (Decode d resp) (code, hs, b, Some cause)])) ∧
  (∀ err w' t,
     run e DoExchange w = (Some err, w', t) →
     setter_calls t = [] ∧
     ((∃ ep w1 resp,
         e _ CtxEndpoint w = (ep, w1) ∧
         e _ (Invoke (Service ep)) w1 = ((resp, Some err), w'))
      ∨ (∃ ep w1 resp w2,
         e _ CtxEndpoint w = (ep, w1) ∧
         e _ (Invoke (Service ep)) w1 = ((resp, None), w2) ∧
         e _ (LoadBackendResponseDecoder (RpcProto (Service ep))) w2 = (None, w') ∧
         err = ErrBackendResponseDecoderNotFound)
      ∨ (∃ ep w1 resp w2 d w3 code hs b cause,
         e _ CtxEndpoint w = (ep, w1) ∧
         e _ (Invoke (Service ep)) w1 = ((resp, None), w2) ∧
         e _ (LoadBackendResponseDecoder (RpcProto (Service ep))) w2 = (Some d, w3) ∧
         e _ (Decode d resp) w3 = ((code, hs, b, Some cause), w') ∧
         err = {| StatusCode := StatusServerError;
                  ErrorCode := ErrorCodeGatewayInternal;
                  Message := "BACKEND:DECODE_RESPONSE";
                  Internal := Some cause |}))) ∧
  (∀ r w' t,
     run e DoExchange w = (r, w', t) →
     setter_calls t ≠ [] →
     r = None ∧
     ∃ ep w1 resp w2 d w3 code hs b w4,
       e _ CtxEndpoint w = (ep, w1) ∧
       e _ (Invoke (Service ep)) w1 = ((resp, None), w2) ∧
       e _ (LoadBackendResponseDecoder (RpcProto (Service ep))) w2 = (Some d, w3) ∧
       e _ (Decode d resp) w3 = ((code, hs, b, None), w4) ∧
       setter_calls t = [Called (SetStatusCode code) tt;
                         Called (SetHeaders hs) tt;
                         Called (SetBody b) tt]).
Proof.
  unfold Backend.DoExchange. split; [|split; [|split; [|split]]].
  - intros ep w1 resp err w2 H1 H2.
    rewrite run_perform, H1. rewrite run_perform, H2. by rewrite run_ret.
  - intros ep w1 resp w2 w3 H1 H2 H3.
    rewrite run_perform, H1. rewrite run_perform, H2. rewrite run_perform, H3.
    by rewrite run_ret.
  - intros ep w1 resp w2 d w3 code hs b cause w4 H1 H2 H3 H4.
    rewrite run_perform, H1. rewrite run_perform, H2. rewrite run_perform, H3.
    rewrite run_perform, H4. by rewrite run_ret.
  - intros err w' t. rewrite run_perform.
    destruct (e _ CtxEndpoint w) as [ep w1] eqn:H1. rewrite run_perform.
    destruct (e _ (Invoke (Service ep)) w1) as [[resp [ierr|]] w2] eqn:H2.
    { rewrite run_ret. intros [= -> -> <-]. split; [reflexivity|]. left. eauto. }
    rewrite run_perform.
    destruct (e _ (LoadBackendResponseDecoder (RpcProto (Service ep))) w2)
      as [[d|] w3] eqn:H3.
    2:{ rewrite run_ret. intros [= <- -> <-]. split; [reflexivity|].
        right; left. eauto 10. }
    rewrite run_perform.
    destruct (e _ (Decode d resp) w3) as [[[[code hs] b] [cause|]] w4] eqn:H4.
    { rewrite run_ret. intros [= <- -> <-]. split; [reflexivity|].
      right; right. eauto 20. }
    rewrite run_perform. destruct (e _ (SetStatusCode code) w4) as [[] w5].
    rewrite run_perform. destruct (e _ (SetHeaders hs) w5) as [[] w6].
    rewrite run_perform. destruct (e _ (SetBody b) w6) as [[] w7].
    rewrite run_ret. discriminate.
  - intros r w' t. rewrite run_perform.
    destruct (e _ CtxEndpoint w) as [ep w1] eqn:H1. rewrite run_perform.
    destruct (e _ (Invoke (Service ep)) w1) as [[resp [ierr|]] w2] eqn:H2.
    { rewrite run_ret. intros [= <- <- <-] Hset. by destruct Hset. }
    rewrite run_perform.
    destruct (e _ (LoadBackendResponseDecoder (RpcProto (Service ep))) w2)
      as [[d|] w3] eqn:H3.
    2:{ rewrite run_ret. intros [= <- <- <-] Hset. by destruct Hset. }
    rewrite run_perform.
    destruct (e _ (Decode d resp) w3) as [[[[code hs] b] [cause|]] w4] eqn:H4.
    { rewrite run_ret. intros [= <- <- <-] Hset. by destruct Hset. }
    rewrite run_perform. destruct (e _ (SetStatusCode code) w4) as [[] w5].
    rewrite run_perform. destruct (e _ (SetHeaders hs) w5) as [[] w6].
    rewrite run_perform. destruct (e _ (SetBody b) w6) as [[] w7].
    rewrite run_ret. intros [= <- <- <-] _. split; [done|].
    by eexists ep, w1, resp, w2, d, w3, code, hs, b, w4.
Qed.

(** C4.  When the backend returns no error and no decoder is registered for
    the protocol of the endpoint, [DoExchange] returns
    [ErrBackendResponseDecoderNotFound], the one value with the status of a
    server error, the code of a gateway-internal error and the message
    BACKEND:RESPONSE_DECODER:NOT_FOUND, after three calls none of which is a
    setter of the response. *)
Theorem exchange_without_decoder (w w1 w2 w3 : W) (ep : Endpoint) (resp : value) :
  e _ CtxEndpoint w = (ep, w1) →
  e _ (Invoke (Service ep)) w1 = ((resp, None), w2) →
  e _ (LoadBackendResponseDecoder (RpcProto (Service ep))) w2 = (None, w3) →
  run e DoExchange w =
    (Some {| StatusCode := StatusServerError;
             ErrorCode := ErrorCodeGatewayInternal;
             Message := "BACKEND:RESPONSE_DECODER:NOT_FOUND";
             Internal := None |},
     w3,
     [Called CtxEndpoint ep;
      Called (Invoke (Service ep)) (resp, None);
      Called (LoadBackendResponseDecoder (RpcProto (Service ep))) None]) ∧
  setter_calls (run e DoExchange w).2 = [].
Proof.
  intros H1 H2 H3. unfold Backend.DoExchange.
  rewrite run_perform, H1. rewrite run_perform, H2. rewrite run_perform, H3.
  rewrite run_ret. split; reflexivity.
Qed.

End Exchange.

(** The end-to-end example: an endpoint of protocol http, a backend that
    returns a raw response, a decoder that maps it to status 200, the header
    X: Y and a body. *)
Definition http_endpoint : Endpoint :=
  mkEndpoint (mkBackendService "http" "localhost:8080" "/hello" "GET" [])
             false "GET" "/hello".

Definition raw_response : value := VBytes "raw".
Definition decoded_body : value := VString "hello".
Definition decoded_headers : Values := {[ "X" := ["Y"] ]}.
Definition blank_response : Response := mkResponse 0 ∅ VNil.
Definition http_decoders : gmap string decoder := {[ "http" := 7%nat ]}.
Definition backend_failure : StateError :=
  mkStateError 502 "GATEWAY:BACKEND" "BACKEND:UNAVAILABLE" None.

Definition succeeding : collaborators Response :=
  scripted http_endpoint (raw_response, None) http_decoders
    (200, decoded_headers, decoded_body, None).

Definition failing_invoke : collaborators Response :=
  scripted http_endpoint (VNil, Some backend_failure) http_decoders
    (200, decoded_headers, decoded_body, None).

Definition without_decoder : collaborators Response :=
  scripted http_endpoint (raw_response, None) ∅
    (200, decoded_headers, decoded_body, None).

Definition malformed : error := errors_New "unexpected end of input".

Definition failing_decoder : collaborators Response :=
  scripted http_endpoint (raw_response, None) http_decoders
    (0, ∅, VNil, Some malformed).

Example exchange_end_to_end :
  (run succeeding (DoExchange 500 "GATEWAY:INTERNAL") blank_response).1
  = (None, mkResponse 200 decoded_headers decoded_body).
Proof. vm_compute. reflexivity. Qed.

Lemma exchange_writes_decoded_response_witness :
  run succeeding (DoExchange 500 "GATEWAY:INTERNAL") blank_response =
    (None, mkResponse 200 decoded_headers decoded_body,
     [Called CtxEndpoint http_endpoint;
      Called (Invoke (Service http_endpoint)) (raw_response, None);
      Called (LoadBackendResponseDecoder "http") (Some 7%nat);
      Called (Decode 7%nat raw_response) (200, decoded_headers, decoded_body, None);
      Called (SetStatusCode 200) tt;
      Called (SetHeaders decoded_headers) tt;
      Called (SetBody decoded_body) tt]).
Proof.
  apply (exchange_writes_decoded_response 500 "GATEWAY:INTERNAL" Response
           succeeding blank_response blank_response blank_response
           blank_response blank_response http_endpoint raw_response 7%nat
           200 decoded_headers decoded_body); reflexivity.
Defined.

Lemma exchange_error_leaves_response_witness :
  (run failing_invoke (DoExchange 500 "GATEWAY:INTERNAL") blank_response =
     (Some backend_failure, blank_response,
      [Called CtxEndpoint http_endpoint;
       Called (Invoke (Service http_endpoint)) (VNil, Some backend_failure)]) ∧
   setter_calls
     [Called CtxEndpoint http_endpoint;
      Called (Invoke (Service http_endpoint)) (VNil, Some backend_failure)] = []) ∧
  run failing_decoder (DoExchange 500 "GATEWAY:INTERNAL") blank_response =
    (Some (mkStateError 500 "GATEWAY:INTERNAL" "BACKEND:DECODE_RESPONSE"
             (Some malformed)),
     blank_response,
     [Called CtxEndpoint http_endpoint;
      Called (Invoke (Service http_endpoint)) (raw_response, None);
      Called (LoadBackendResponseDecoder "http") (Some 7%nat);
      Called (Decode 7%nat raw_response) (0, ∅, VNil, Some malformed)]).
Proof.
  assert (H : run failing_invoke (DoExchange 500 "GATEWAY:INTERNAL") blank_response =
    (Some backend_failure, blank_response,
     [Called CtxEndpoint http_endpoint;
      Called (Invoke (Service http_endpoint)) (VNil, Some backend_failure)]))
    by reflexivity.
  split; [split; [exact H|]|].
  - destruct (exchange_error_leaves_response 500 "GATEWAY:INTERNAL" Response
                failing_invoke blank_response) as (_ & _ & _ & Herr & _).
    exact (proj1 (Herr _ _ _ H)).
  - destruct (exchange_error_leaves_response 500 "GATEWAY:INTERNAL" Response
                failing_decoder blank_response) as (_ & _ & Hdecode & _).
    exact (Hdecode http_endpoint blank_response raw_response blank_response
             7%nat blank_response 0 ∅ VNil malformed blank_response
             eq_refl eq_refl eq_refl eq_refl).
Defined.

Lemma exchange_without_decoder_witness :
  run without_decoder (DoExchange 500 "GATEWAY:INTERNAL") blank_response =
    (Some (ErrBackendResponseDecoderNotFound 500 "GATEWAY:INTERNAL"),
     blank_response,
     [Called CtxEndpoint http_endpoint;
      Called (Invoke (Service http_endpoint)) (raw_response, None);
      Called (LoadBackendResponseDecoder "http") None]).
Proof.
  apply (exchange_without_decoder 500 "GATEWAY:INTERNAL" Response
           without_decoder blank_response blank_response blank_response
           blank_response http_endpoint raw_response); reflexivity.
Defined.

End BackendSpec.

(** ** Properties of the resolvers *)

Module SupportSpec.
Import Go Support.

Lemma append_String c s1 s2 : String c s1 +:+ s2 = String c (s1 +:+ s2).
Proof. reflexivity. Qed.

Lemma append_assoc (s1 s2 s3 : string) : (s1 +:+ s2) +:+ s3 = s1 +:+ (s2 +:+ s3).
Proof.
  induction s1 as [|c s1 IH]; [reflexivity|].
  rewrite !append_String. by rewrite IH.
Qed.

(** *** The escaping *)

Lemma JSONStringValueEncode_app s1 s2 :
  JSONStringValueEncode (s1 +:+ s2)
  = JSONStringValueEncode s1 +:+ JSONStringValueEncode s2.
Proof.
  induction s1 as [|c s1 IH]; [reflexivity|].
  rewrite append_String. simpl. destruct (Ascii.eqb c dquote);
    rewrite ?append_String; by rewrite IH.
Qed.

(** C8, as the code has it.  The escaping puts a backslash before every
    double quote and changes nothing else: it goes through the text character
    by character, a double quote becomes a backslash and a double quote, and
    every other character, a backslash or a control character too, is passed
    through unchanged. *)
Theorem JSONStringValueEncode_escapes_quotes :
  (∀ s1 s2, JSONStringValueEncode (s1 +:+ s2)
            = JSONStringValueEncode s1 +:+ JSONStringValueEncode s2) ∧
  (∀ s, JSONStringValueEncode (String dquote s)
        = String backslash (String dquote (JSONStringValueEncode s))) ∧
  (∀ c s, c ≠ dquote →
          JSONStringValueEncode (String c s) = String c (JSONStringValueEncode s)) ∧
  JSONStringValueEncode (String backslash (String "010" EmptyString))
  = String backslash (String "010" EmptyString).
Proof.
  split; [apply JSONStringValueEncode_app|]. split; [reflexivity|].
  split; [|reflexivity].
  intros c s Hc. simpl. destruct (Ascii.eqb_spec c dquote); done.
Qed.

(** C8, as it is stated, fails on a text that is one double quote: the code
    returns a backslash and a double quote, not two double quotes. *)
Lemma JSONStringValueEncode_does_not_double :
  JSONStringValueEncode (String dquote EmptyString)
  = String backslash (String dquote EmptyString) ∧
  quotes_doubled (String dquote EmptyString)
  = String dquote (String dquote EmptyString) ∧
  JSONStringValueEncode (String dquote EmptyString)
  ≠ quotes_doubled (String dquote EmptyString).
Proof. split; [reflexivity|]. split; [reflexivity|]. discriminate. Qed.

(** *** The form to JSON transcoder *)

Lemma copy_encoded_spec values : ∀ pre,
  copy_encoded (length pre) values
    (pre ++ replicate (length values) EmptyString)
  = pre ++ (json_string <$> values).
Proof.
  induction values as [|v values IH]; intros pre; simpl; [done|].
  replace (length pre) with (length pre + 0)%nat at 2 by lia.
  rewrite insert_app_r. simpl.
  specialize (IH (pre ++ [json_string v])).
  rewrite length_app in IH. simpl in IH.
  replace (length pre + 1)%nat with (S (length pre)) in IH by lia.
  rewrite <- !app_assoc in IH. exact IH.
Qed.

Lemma field_spec key values :
  values ≠ [] → field key values = Some (json_member (key, values)).
Proof.
  intros Hv. unfold field, json_member. simpl.
  destruct values as [|v [|v' values]]; [done| |].
  - rewrite decide_False by (simpl; lia). reflexivity.
  - rewrite decide_True by (simpl; lia). f_equal.
    change (copy_encoded 0 (v :: v' :: values)
              (replicate (length (v :: v' :: values)) EmptyString))
      with (copy_encoded (length (@nil string)) (v :: v' :: values)
              ([] ++ replicate (length (v :: v' :: values)) EmptyString)).
    rewrite copy_encoded_spec. rewrite app_nil_l.
    reflexivity.
Qed.

Lemma range_fields_spec entries : ∀ fields,
  Forall (λ entry, entry.2 ≠ []) entries →
  range_fields entries fields = Some (fields ++ (json_member <$> entries)).
Proof.
  induction entries as [|[key values] entries IH]; intros fields Hne; simpl.
  - by rewrite app_nil_r.
  - inversion Hne as [|? ? Hv Hne']; subst. rewrite (field_spec key values Hv).
    simpl. rewrite IH by done. by rewrite <- app_assoc.
Qed.

Lemma Permutation_two {A} (x y : A) (l : list A) :
  l ≡ₚ [x; y] → l = [x; y] ∨ l = [y; x].
Proof.
  intros H. symmetry in H. by apply Permutation_length_2_inv in H.
Qed.

Section Resolvers.

Context {L : Library} {N : Names}.

(** C7.  For every payload that [url.ParseQuery] parses (it gives every key at
    least one value, and [range] visits every key once),
    [JSONBytesFromQueryString] returns one flat JSON object, the members in
    the order of the range: a key with one value as the quoted key, a colon
    and the quoted, escaped value; a key with several values as the quoted
    key, a colon and the array of the quoted, escaped values.  In particular,
    for the values of a=1&a=2&b=3 it returns the object with the member a,
    the array of 1 and 2, and the member b, the string 3, in one of the two
    orders. *)
Theorem JSONBytesFromQueryString_renders (queryStr : string)
    (queryValues : Values) :
  url_ParseQuery queryStr = (queryValues, None) →
  map_Forall (λ _ values, values ≠ []) queryValues →
  range_Values queryValues ≡ₚ map_to_list queryValues →
  JSONBytesFromQueryString queryStr
  = Return (json_object (json_member <$> range_Values queryValues)) None ∧
  json_member <$> range_Values queryValues
  ≡ₚ json_member <$> map_to_list queryValues ∧
  (∀ key v, queryValues !! key = Some [v] →
     quoted key +:+ ":" +:+ quoted (JSONStringValueEncode v)
     ∈ json_member <$> range_Values queryValues) ∧
  (∀ key values, queryValues !! key = Some values → (1 < length values)%nat →
     quoted key +:+ ":" +:+
       ("[" +:+ strings_Join ((λ v, quoted (JSONStringValueEncode v)) <$> values) ","
            +:+ "]")
     ∈ json_member <$> range_Values queryValues) ∧
  (queryValues = Sample.example_values →
     JSONBytesFromQueryString queryStr
     = Return (Sample.text "{'a':['1','2'],'b':'3'}") None ∨
     JSONBytesFromQueryString queryStr
     = Return (Sample.text "{'b':'3','a':['1','2']}") None).
Proof.
  intros Hparse Hne Hrange.
  assert (Hall : Forall (λ entry : string * list string, entry.2 ≠ [])
                   (range_Values queryValues)).
  { rewrite Hrange. apply Forall_forall. intros [key values] Hin.
    apply elem_of_map_to_list in Hin. apply (Hne key values Hin). }
  assert (Hjson : JSONBytesFromQueryString queryStr
    = Return (json_object (json_member <$> range_Values queryValues)) None).
  { unfold JSONBytesFromQueryString. rewrite Hparse.
    by rewrite (range_fields_spec _ [] Hall). }
  assert (Hmember : ∀ key values, queryValues !! key = Some values →
            json_member (key, values) ∈ json_member <$> range_Values queryValues).
  { intros key values Hkey. apply list_elem_of_fmap_2. rewrite Hrange.
    by apply elem_of_map_to_list. }
  split; [exact Hjson|]. split; [by rewrite Hrange|].
  split; [intros key v Hkey; apply (Hmember key [v] Hkey)|].
  split.
  - intros key values Hkey Hlen.
    destruct values as [|v [|v' values]]; simpl in Hlen; [lia..|].
    apply (Hmember key (v :: v' :: values) Hkey).
  - intros ->. rewrite Hjson.
    destruct (Permutation_two ("a", ["1"; "2"]) ("b", ["3"])
                (range_Values Sample.example_values)) as [-> | ->];
      [by rewrite Hrange|left|right]; reflexivity.
Qed.

(** *** The registry after [init] *)

Lemma init_default reg :
  init reg !! DefaultTypedValueResolverName = Some defaultResolver.
Proof. unfold init, StoreTypedValueResolver. cbn [foldl]. apply lookup_insert_eq. Qed.

Lemma LoadTypedValueResolver_unknown reg typeClass :
  init reg !! typeClass = None →
  LoadTypedValueResolver (init reg) typeClass = Some defaultResolver.
Proof.
  intros Hnone. unfold LoadTypedValueResolver. rewrite Hnone. apply init_default.
Qed.

Lemma init_int reg :
  "int" ∉ declared_names → init reg !! "int" = Some integerResolver.
Proof.
  unfold declared_names. rewrite !not_elem_of_cons.
  intros (? & ? & ? & ? & ? & ? & ? & ? & ? & _).
  unfold init, StoreTypedValueResolver. cbn [foldl].
  repeat (rewrite lookup_insert_ne by (discriminate || congruence)).
  apply lookup_insert_eq.
Qed.

(** C5.  The integer, 64-bit integer, 32-bit float, 64-bit float and boolean
    resolvers return the cast of the raw value and a nil error, for every
    MIME value.  Resolving the type int on the raw text 42 returns the integer
    42 that the cast gives, with no error; and on a text that the cast cannot
    parse, for which it gives zero and an error, the zero with no error. *)
Theorem numeric_resolvers_never_fail :
  (∀ reg typeClass genericTypes value,
     call reg integerResolver typeClass genericTypes value
       = Return (VInt (cast_ToInt (Value value))) None ∧
     call reg longResolver typeClass genericTypes value
       = Return (VInt64 (cast_ToInt64 (Value value))) None ∧
     call reg float32Resolver typeClass genericTypes value
       = Return (VFloat32 (cast_ToFloat32 (Value value))) None ∧
     call reg float64Resolver typeClass genericTypes value
       = Return (VFloat64 (cast_ToFloat64 (Value value))) None ∧
     call reg booleanResolver typeClass genericTypes value
       = Return (VBool (cast_ToBool (Value value))) None) ∧
  (∀ reg genericTypes,
     "int" ∉ declared_names →
     cast_ToIntE (VString "42") = (42, None) →
     resolve (init reg) "int" genericTypes
       (mkMIMEValue ValueMIMETypeGoText (VString "42"))
     = Return (VInt 42) None) ∧
  (∀ reg genericTypes unparseable err,
     "int" ∉ declared_names →
     cast_ToIntE (VString unparseable) = (0, Some err) →
     resolve (init reg) "int" genericTypes
       (mkMIMEValue ValueMIMETypeGoText (VString unparseable))
     = Return (VInt 0) None).
Proof.
  split; [intros; repeat split; reflexivity|]. split.
  - intros reg genericTypes Hint Hcast. unfold resolve, LoadTypedValueResolver.
    rewrite (init_int reg Hint). simpl.
    unfold ResolveFunc, returned, cast_ToInt. simpl. by rewrite Hcast.
  - intros reg genericTypes unparseable err Hint Hcast.
    unfold resolve, LoadTypedValueResolver.
    rewrite (init_int reg Hint). simpl.
    unfold ResolveFunc, returned, cast_ToInt. simpl. by rewrite Hcast.
Qed.

(** C6.  For a type-class name with no registered resolver, the resolver that
    is used is [defaultResolver], registered under the reserved default name;
    it returns no error, and a descriptor with the type name under class, the
    generic type parameters under generic and the MIME value, its raw value
    unchanged, under value. *)
Theorem unknown_type_resolves_to_descriptor (reg : gmap string TypedValueResolver)
    (typeClass : string) (genericTypes : list string) (value : MIMEValue) :
  init reg !! typeClass = None →
  LoadTypedValueResolver (init reg) typeClass = Some defaultResolver ∧
  ∃ descriptor : gmap string Go.value,
    resolve (init reg) typeClass genericTypes value
    = Return (VStringMap descriptor) None ∧
    descriptor !! "class" = Some (VString typeClass) ∧
    descriptor !! "generic" = Some (VStrings genericTypes) ∧
    descriptor !! "value" = Some (VMIMEValue (MIMEType value) (Value value)) ∧
    dom descriptor = {[ "class"; "generic"; "value" ]}.
Proof.
  intros Hnone. split; [by apply LoadTypedValueResolver_unknown|].
  unfold resolve. rewrite (LoadTypedValueResolver_unknown _ _ Hnone). simpl.
  eexists. split; [reflexivity|].
  split; [reflexivity|]. split; [reflexivity|]. split; [reflexivity|].
  rewrite !dom_insert_L, dom_empty_L. set_solver.
Qed.

(** C9.  With no generic type, [CastToArrayList] returns the raw value of the
    MIME value in a sequence of one element, and no error.  With generic
    types, it looks up the resolver of the first one, calls it on the MIME
    value with that name and no generic types, and returns the resolved value
    in a sequence of one element, or the error of the resolver; a panic of
    the resolver, or of calling the nil resolver of a registry with no
    default, is passed on. *)
Theorem CastToArrayList_wraps_one_element (reg : gmap string TypedValueResolver) (mimeV : MIMEValue) :
  CastToArrayList reg [] mimeV = Return [Value mimeV] None ∧
  ∀ typeClass genericTypes,
    CastToArrayList reg (typeClass :: genericTypes) mimeV =
    match LoadTypedValueResolver reg typeClass with
    | None => Panic
    | Some resolver =>
        match call reg resolver typeClass [] mimeV with
        | Panic => Panic
        | Return _ (Some err) => Return [] (Some err)
        | Return v None => Return [v] None
        end
    end.
Proof.
  split; [by simp CastToArrayList|].
  intros typeClass genericTypes. simp CastToArrayList.
  destruct (LoadTypedValueResolver reg typeClass) as [[f|]|]; simpl;
    by simp CastToArrayList.
Qed.

End Resolvers.

(** *** Examples, with the libraries of [Sample] *)

#[local] Existing Instances Sample.library Sample.names.

Example resolve_int :
  resolve (init ∅) "int" [] (mkMIMEValue "go:text" (VString "42"))
  = Return (VInt 42) None.
Proof. reflexivity. Qed.

Example resolve_slice_of_string :
  resolve (init ∅) "slice" ["string"] (mkMIMEValue "go:text" (VString "x"))
  = Return (VSlice [VString "x"]) None.
Proof. reflexivity. Qed.

Example transcode_form :
  JSONBytesFromQueryString "a=1&a=2&b=3"
  = Return (Sample.text "{'a':['1','2'],'b':'3'}") None.
Proof. vm_compute. reflexivity. Qed.

Lemma JSONBytesFromQueryString_renders_witness :
  JSONBytesFromQueryString "a=1&a=2&b=3"
  = Return (json_object (json_member <$> map_to_list Sample.example_values)) None ∧
  (JSONBytesFromQueryString "a=1&a=2&b=3"
   = Return (Sample.text "{'a':['1','2'],'b':'3'}") None ∨
   JSONBytesFromQueryString "a=1&a=2&b=3"
   = Return (Sample.text "{'b':'3','a':['1','2']}") None).
Proof.
  assert (Hparse : url_ParseQuery "a=1&a=2&b=3" = (Sample.example_values, None))
    by (vm_compute; reflexivity).
  assert (Hne : map_Forall (λ (_ : string) (values : list string), values ≠ [])
                  Sample.example_values).
  { apply map_Forall_insert_2; [discriminate|].
    apply map_Forall_insert_2; [discriminate|]. apply map_Forall_empty. }
  destruct (JSONBytesFromQueryString_renders "a=1&a=2&b=3"
              Sample.example_values Hparse Hne (reflexivity _))
    as (H1 & _ & _ & _ & H5).
  split; [exact H1|exact (H5 eq_refl)].
Defined.

Lemma unknown_type_resolves_to_descriptor_witness :
  LoadTypedValueResolver (init ∅) "com.foo.Bar" = Some defaultResolver ∧
  ∃ descriptor : gmap string Go.value,
    resolve (init ∅) "com.foo.Bar" ["T"] (mkMIMEValue "go:text" (VString "x"))
    = Return (VStringMap descriptor) None ∧
    descriptor !! "class" = Some (VString "com.foo.Bar") ∧
    descriptor !! "generic" = Some (VStrings ["T"]) ∧
    descriptor !! "value" = Some (VMIMEValue "go:text" (VString "x")) ∧
    dom descriptor = {[ "class"; "generic"; "value" ]}.
Proof.
  apply (unknown_type_resolves_to_descriptor ∅ "com.foo.Bar" ["T"]
           (mkMIMEValue "go:text" (VString "x"))).
  vm_compute. reflexivity.
Defined.

Lemma numeric_resolvers_never_fail_witness :
  resolve (init ∅) "int" [] (mkMIMEValue "go:text" (VString "42"))
  = Return (VInt 42) None ∧
  resolve (init ∅) "int" [] (mkMIMEValue "go:text" (VString "4x2"))
  = Return (VInt 0) None.
Proof.
  assert (Hint : "int" ∉ declared_names).
  { unfold declared_names. rewrite !not_elem_of_cons, elem_of_nil.
    repeat split; (discriminate || tauto). }
  destruct (@numeric_resolvers_never_fail Sample.library Sample.names)
    as (_ & H42 & Hbad).
  split.
  - apply (H42 ∅ [] Hint). reflexivity.
  - apply (Hbad ∅ [] "4x2" (fmt_Errorf "unable to cast to int") Hint). reflexivity.
Defined.

End SupportSpec.

(** ** More on the filter registry: what is registered, lookups, the order *)

Module ExtFacts.
Import Ext.

(** The filters that a sequence of calls registers as global ones, and as
    selective ones, in the order of the calls. *)
Definition global_filters (cs : list call) : list Filter :=
  omap (λ c, match c with
             | CallStoreGlobalFilter (AFilter f) => Some f
             | _ => None
             end) cs.

Definition selective_filters (cs : list call) : list Filter :=
  omap (λ c, match c with
             | CallStoreSelectiveFilter (AFilter f) => Some f
             | _ => None
             end) cs.

Lemma findFilter_None filterId l :
  findFilter filterId l = None ↔
  ∀ w, w ∈ l → TypeId (filter w) ≠ filterId.
Proof.
  induction l as [|w l IH]; simpl.
  - split; [|done]. intros _ w Hw. by apply elem_of_nil in Hw.
  - case_decide as Hid.
    + split; [done|]. intros H. destruct (H w); [by left|done].
    + rewrite IH. split.
      * intros H w' [->|Hw']%elem_of_cons; [congruence|by apply H].
      * intros H w' Hw'. apply H. by right.
Qed.

Lemma findFilter_Some filterId l f :
  findFilter filterId l = Some f ↔
  ∃ (i : nat) w, l !! i = Some w ∧ filter w = f ∧ TypeId f = filterId ∧
    ∀ (j : nat) w', (j < i)%nat → l !! j = Some w' → TypeId (filter w') ≠ filterId.
Proof.
  revert f. induction l as [|w l IH]; intros f; simpl.
  - split; [done|]. by intros (i & w & Hi & _); destruct i.
  - case_decide as Hid.
    + split.
      * intros [= <-]. exists 0%nat, w. repeat split; [done|]. intros; lia.
      * intros ([|i] & w' & Hi & <- & Hf & Hfirst); simpl in Hi.
        -- by injection Hi as <-.
        -- destruct (Hfirst 0%nat w); [lia|done|done].
    + rewrite IH. split.
      * intros (i & w' & Hi & Hw & Hf & Hfirst). exists (S i), w'.
        repeat split; try done. intros [|j] w'' Hj Hw''; simpl in Hw''.
        -- injection Hw'' as <-. congruence.
        -- apply (Hfirst j); [lia|done].
      * intros ([|i] & w' & Hi & Hw & Hf & Hfirst); simpl in Hi.
        -- injection Hi as <-. congruence.
        -- exists i, w'. repeat split; try done. intros j w'' Hj Hw''.
           apply (Hfirst (S j)); [lia|done].
Qed.

(** A lookup by id returns the first selective filter, in the order of the
    sequence, whose [TypeId] is the id, and not-found exactly when there is
    none; the global sequence plays no part. *)
Theorem LoadSelectiveFilter_finds_first (filterId : string) (r : registry) :
  filterId ≠ EmptyString →
  (LoadSelectiveFilter filterId r = Some None ↔
     ∀ f, f ∈ LoadSelectiveFilters r → TypeId f ≠ filterId) ∧
  (∀ f, LoadSelectiveFilter filterId r = Some (Some f) ↔
     ∃ i : nat, LoadSelectiveFilters r !! i = Some f ∧ TypeId f = filterId ∧
       ∀ (j : nat) g, (j < i)%nat → LoadSelectiveFilters r !! j = Some g →
                      TypeId g ≠ filterId) ∧
  (∀ g, LoadSelectiveFilter filterId (mkRegistry g (_selectiveFilter r))
        = LoadSelectiveFilter filterId r).
Proof.
  intros Hid. unfold LoadSelectiveFilter, RequireNotEmpty.
  rewrite decide_False by done. simpl.
  unfold LoadSelectiveFilters, _getFilters. split; [|split; [|done]].
  - split.
    + intros [= H]. rewrite findFilter_None in H.
      intros f (w & -> & Hw)%list_elem_of_fmap. by apply H.
    + intros H. f_equal. apply findFilter_None. intros w Hw. apply H.
      by apply list_elem_of_fmap_2.
  - intros f. split.
    + intros [= H]. apply findFilter_Some in H as (i & w & Hi & <- & Hf & Hfirst).
      exists i. rewrite list_lookup_fmap, Hi. repeat split; try done.
      intros j g Hj Hg. rewrite list_lookup_fmap in Hg.
      apply fmap_Some in Hg as (w' & Hw' & ->). by apply (Hfirst j).
    + intros (i & Hi & Hf & Hfirst). f_equal. apply findFilter_Some.
      rewrite list_lookup_fmap in Hi. apply fmap_Some in Hi as (w & Hw & ->).
      exists i, w. repeat split; try done. intros j w' Hj Hw'.
      apply (Hfirst j); [done|]. by rewrite list_lookup_fmap, Hw'.
Qed.

Lemma Less_Some (s : list filterWrapper) (i j : nat) (b : bool) :
  Less s i j = Some b ↔
  ∃ x y, s !! i = Some x ∧ s !! j = Some y ∧ b = (order x <? order y).
Proof.
  unfold Less. destruct (s !! i) as [x|], (s !! j) as [y|]; split;
    try (intros [= <-]; eauto); try (intros (? & ? & ? & ? & ?); congruence);
    discriminate.
Qed.

(** [Less] compares the stored orders: it panics exactly on an index out of
    range, and within the range it is a strict weak order, as [sort.Sort]
    asks of it. *)
Theorem Less_is_strict_weak_order (s : list filterWrapper) (i j k : nat) :
  (Less s i j = None ↔ (length s ≤ i ∨ length s ≤ j)%nat) ∧
  ((i < length s)%nat → Less s i i = Some false) ∧
  (Less s i j = Some true → Less s j i = Some false) ∧
  (Less s i j = Some true → Less s j k = Some true → Less s i k = Some true) ∧
  (Less s i j = Some false → Less s j k = Some false → Less s i k = Some false).
Proof.
  split; [|split; [|split; [|split]]].
  - unfold Less. destruct (s !! i) as [a|] eqn:Ei.
    + apply lookup_lt_Some in Ei. destruct (s !! j) as [b|] eqn:Ej.
      * apply lookup_lt_Some in Ej. split; [done|lia].
      * apply lookup_ge_None in Ej. split; auto.
    + apply lookup_ge_None in Ei. split; auto.
  - intros Hi. destruct (lookup_lt_is_Some_2 s i Hi) as [a Ea].
    apply Less_Some. exists a, a. by rewrite Z.ltb_irrefl.
  - intros (x & y & Ex & Ey & Hlt)%Less_Some. apply Less_Some.
    exists y, x. repeat split; try done. symmetry in Hlt.
    apply Z.ltb_lt in Hlt. symmetry. apply Z.ltb_ge. lia.
  - intros (x & y & Ex & Ey & H1)%Less_Some (y' & z & Ey' & Ez & H2)%Less_Some.
    assert (y' = y) as -> by congruence. apply Less_Some. exists x, z.
    repeat split; try done. symmetry in H1, H2.
    apply Z.ltb_lt in H1, H2. symmetry. apply Z.ltb_lt. lia.
  - intros (x & y & Ex & Ey & H1)%Less_Some (y' & z & Ey' & Ez & H2)%Less_Some.
    assert (y' = y) as -> by congruence. apply Less_Some. exists x, z.
    repeat split; try done. symmetry in H1, H2.
    apply Z.ltb_ge in H1, H2. symmetry. apply Z.ltb_ge. lia.
Qed.

(** [Swap] panics exactly on an index out of range; within the range it
    exchanges the two elements and leaves the others, so that the result is a
    permutation, and swapping again gives the slice back. *)
Theorem Swap_exchanges (s : list filterWrapper) (i j : nat) :
  (Swap s i j = None ↔ (length s ≤ i ∨ length s ≤ j)%nat) ∧
  ∀ s', Swap s i j = Some s' →
    s' !! i = s !! j ∧ s' !! j = s !! i ∧
    (∀ k : nat, k ≠ i → k ≠ j → s' !! k = s !! k) ∧
    length s' = length s ∧
    s' ≡ₚ s ∧
    Swap s' i j = Some s.
Proof.
  unfold Swap. split.
  - destruct (s !! i) as [a|] eqn:Ei.
    + apply lookup_lt_Some in Ei. destruct (s !! j) as [b|] eqn:Ej.
      * apply lookup_lt_Some in Ej. split; [done|lia].
      * apply lookup_ge_None in Ej. split; auto.
    + apply lookup_ge_None in Ei. split; auto.
  - intros s'. destruct (s !! i) as [a|] eqn:Ei; [|done].
    destruct (s !! j) as [b|] eqn:Ej; [|done]. intros [= <-].
    pose proof (lookup_lt_Some _ _ _ Ei) as Hi.
    pose proof (lookup_lt_Some _ _ _ Ej) as Hj.
    assert (Hli : <[j:=a]> (<[i:=b]> s) !! i = Some b).
    { destruct (decide (i = j)) as [->|Hne].
      - rewrite list_lookup_insert_eq by (by rewrite length_insert). congruence.
      - rewrite list_lookup_insert_ne by done. by rewrite list_lookup_insert_eq. }
    assert (Hlj : <[j:=a]> (<[i:=b]> s) !! j = Some a).
    { by rewrite list_lookup_insert_eq by (by rewrite length_insert). }
    assert (Hlk : ∀ k : nat, k ≠ i → k ≠ j → <[j:=a]> (<[i:=b]> s) !! k = s !! k).
    { intros k Hki Hkj. by rewrite !list_lookup_insert_ne by done. }
    split; [congruence|]. split; [congruence|]. split; [done|].
    split; [by rewrite !length_insert|]. split.
    + apply Permutation_inj. split; [by rewrite !length_insert|].
      exists (λ k, if decide (k = i) then j else if decide (k = j) then i else k).
      split.
      * intros k1 k2 Hk. repeat case_decide; congruence.
      * intros k. repeat case_decide; subst; try congruence. by apply Hlk.
    + rewrite Hli, Hlj. f_equal. apply list_eq. intros k.
      destruct (decide (k = j)) as [->|Hkj].
      * rewrite list_lookup_insert_eq by (by rewrite !length_insert). done.
      * rewrite list_lookup_insert_ne by done.
        destruct (decide (k = i)) as [->|Hki].
        -- rewrite list_lookup_insert_eq by (by rewrite !length_insert). done.
        -- rewrite list_lookup_insert_ne by done. by apply Hlk.
Qed.

Lemma run_Some_registers
    (sort_Sort : list filterWrapper → list filterWrapper) (cs : list call) :
  ∀ r, is_Some (run sort_Sort cs r) → Forall ExtSpec.registers_filter cs.
Proof.
  induction cs as [|c cs IH]; intros r [r' Hrun]; [constructor|].
  simpl in Hrun. destruct (step sort_Sort r c) as [r1|] eqn:E; [|discriminate].
  simpl in Hrun. constructor; [|by eapply IH].
  destruct c as [[| |f]|[| |f]]; simpl in E; try discriminate; done.
Qed.

(** A sequence of registrations panics exactly when one of its calls is
    given nil or a value that is no filter; the sort plays no part. *)
Theorem registrations_panic_on_non_filters
    (sort_Sort : list filterWrapper → list filterWrapper) (cs : list call)
    (r : registry) :
  is_Some (run sort_Sort cs r) ↔ Forall ExtSpec.registers_filter cs.
Proof. split; [apply run_Some_registers|apply ExtSpec.run_total]. Qed.

Section Registry.

Variable sort_Sort : list filterWrapper → list filterWrapper.
Hypothesis sort_Sort_sorts : sorts sort_Sort.

Lemma run_loads cs : ∀ r r',
  run sort_Sort cs r = Some r' →
  LoadGlobalFilters r' ≡ₚ LoadGlobalFilters r ++ global_filters cs ∧
  LoadSelectiveFilters r' ≡ₚ LoadSelectiveFilters r ++ selective_filters cs.
Proof.
  induction cs as [|c cs IH]; intros r r' Hrun; simpl in Hrun.
  - injection Hrun as <-. by rewrite !app_nil_r.
  - ExtSpec.bind_inv Hrun r1 E. destruct (IH _ _ Hrun) as [IHg IHs].
    rewrite IHg, IHs. clear IHg IHs Hrun.
    destruct c as [v|v]; simpl in E.
    + unfold StoreGlobalFilter in E. ExtSpec.bind_inv E g Eg. injection E as <-.
      apply ExtSpec.checkedAppendFilter_Some in Eg as (f & -> & ->).
      unfold LoadGlobalFilters, LoadSelectiveFilters; simpl. split; [|done].
      rewrite (ExtSpec.getFilters_sorted_append _ sort_Sort_sorts).
      by rewrite <- app_assoc.
    + unfold StoreSelectiveFilter in E. ExtSpec.bind_inv E g Eg. injection E as <-.
      apply ExtSpec.checkedAppendFilter_Some in Eg as (f & -> & ->).
      unfold LoadGlobalFilters, LoadSelectiveFilters; simpl. split; [done|].
      rewrite (ExtSpec.getFilters_sorted_append _ sort_Sort_sorts).
      by rewrite <- app_assoc.
Qed.

(** After a sequence of registrations the two sequences hold exactly the
    filters that were registered to them, each as many times as it was
    registered: a registration to one sequence adds nothing to the other,
    and registering a filter twice gives two entries. *)
Theorem registry_holds_what_was_registered (cs : list call) (r : registry) :
  run sort_Sort cs initial = Some r →
  LoadGlobalFilters r ≡ₚ global_filters cs ∧
  LoadSelectiveFilters r ≡ₚ selective_filters cs ∧
  (length (LoadGlobalFilters r) + length (LoadSelectiveFilters r))%nat = length cs.
Proof.
  intros Hrun. destruct (run_loads _ _ _ Hrun) as [Hg Hs]. simpl in Hg, Hs.
  split; [done|]. split; [done|]. rewrite Hg, Hs.
  assert (Hall : Forall ExtSpec.registers_filter cs)
    by (apply (run_Some_registers sort_Sort cs initial); eauto).
  clear -Hall. induction Hall as [|c cs Hc _ IH]; [done|].
  destruct c as [[| |f]|[| |f]]; simpl in Hc; try done; simpl; lia.
Qed.

(** When several selective filters share an id, the lookup returns one of
    the least order among them. *)
Theorem LoadSelectiveFilter_finds_least_order (cs : list call) (r : registry)
    (filterId : string) (f : Filter) :
  run sort_Sort cs initial = Some r →
  LoadSelectiveFilter filterId r = Some (Some f) →
  ∀ g, g ∈ LoadSelectiveFilters r → TypeId g = filterId →
       filterOrder f ≤ filterOrder g.
Proof.
  intros Hrun Hload g Hg Hid.
  destruct (ExtSpec.run_settled _ sort_Sort_sorts _ _ _
              (ExtSpec.settled_initial) Hrun) as [_ [Hc Ha]].
  pose proof (ExtSpec.consistent_ascending_nondecreasing _ Hc Ha) as Hnd.
  unfold LoadSelectiveFilter in Hload.
  destruct (RequireNotEmpty filterId) as [filterId'|] eqn:Hne; [|discriminate].
  unfold RequireNotEmpty in Hne. case_decide; [discriminate|].
  injection Hne as <-. simpl in Hload. injection Hload as Hload.
  apply findFilter_Some in Hload as (i & w & Hi & <- & _ & Hfirst).
  apply list_elem_of_lookup in Hg as [j Hj].
  unfold LoadSelectiveFilters, _getFilters in *.
  destruct (decide (i ≤ j)%nat) as [Hij|Hij].
  - apply (Hnd i j); [done| |done]. by rewrite list_lookup_fmap, Hi.
  - rewrite list_lookup_fmap in Hj. apply fmap_Some in Hj as (w' & Hw' & ->).
    destruct (Hfirst j w'); [lia|done|done].
Qed.

End Registry.

(** Two selective filters of one id, the later registered of lower order. *)
Definition late_filter : Filter := mkFilter 3 "early" (Some 7).

Definition shared_id_calls : list call :=
  [CallStoreSelectiveFilter (AFilter late_filter);
   CallStoreGlobalFilter (AFilter ExtSpec.plain_filter);
   CallStoreSelectiveFilter (AFilter ExtSpec.early_filter)].

Definition shared_id_registry : registry :=
  mkRegistry [mkWrapper ExtSpec.plain_filter 0]
             [mkWrapper ExtSpec.early_filter (-5); mkWrapper late_filter 7].

Lemma LoadSelectiveFilter_finds_first_witness :
  LoadSelectiveFilter "early" shared_id_registry = Some (Some ExtSpec.early_filter) ∧
  ∃ i : nat, LoadSelectiveFilters shared_id_registry !! i = Some ExtSpec.early_filter ∧
    TypeId ExtSpec.early_filter = "early" ∧
    ∀ (j : nat) g, (j < i)%nat →
      LoadSelectiveFilters shared_id_registry !! j = Some g → TypeId g ≠ "early".
Proof.
  assert (H : LoadSelectiveFilter "early" shared_id_registry
              = Some (Some ExtSpec.early_filter)) by reflexivity.
  split; [exact H|].
  assert (Hid : "early" ≠ EmptyString) by discriminate.
  exact (proj1 (proj1 (proj2 (LoadSelectiveFilter_finds_first "early"
                                shared_id_registry Hid))
                  ExtSpec.early_filter) H).
Defined.

Lemma registry_holds_what_was_registered_witness :
  run reference_sort shared_id_calls initial = Some shared_id_registry ∧
  LoadGlobalFilters shared_id_registry ≡ₚ [ExtSpec.plain_filter] ∧
  LoadSelectiveFilters shared_id_registry ≡ₚ [late_filter; ExtSpec.early_filter].
Proof.
  assert (Hrun : run reference_sort shared_id_calls initial
                 = Some shared_id_registry) by (vm_compute; reflexivity).
  split; [exact Hrun|].
  destruct (registry_holds_what_was_registered reference_sort
              ExtSpec.reference_sort_sorts shared_id_calls shared_id_registry Hrun)
    as (Hg & Hs & _).
  split; [exact Hg|exact Hs].
Defined.

Lemma LoadSelectiveFilter_finds_least_order_witness :
  run reference_sort shared_id_calls initial = Some shared_id_registry ∧
  LoadSelectiveFilter "early" shared_id_registry = Some (Some ExtSpec.early_filter) ∧
  filterOrder ExtSpec.early_filter ≤ filterOrder late_filter.
Proof.
  assert (Hrun : run reference_sort shared_id_calls initial
                 = Some shared_id_registry) by (vm_compute; reflexivity).
  assert (H : LoadSelectiveFilter "early" shared_id_registry
              = Some (Some ExtSpec.early_filter)) by reflexivity.
  split; [exact Hrun|]. split; [exact H|].
  apply (LoadSelectiveFilter_finds_least_order reference_sort
           ExtSpec.reference_sort_sorts shared_id_calls shared_id_registry
           "early" ExtSpec.early_filter Hrun H late_filter); [|reflexivity].
  apply elem_of_cons; right. apply elem_of_cons; by left.
Defined.

End ExtFacts.

(** ** More on the registry in memory: the copy that a load makes *)

Module ExtMemFacts.
Import ExtMem.

(** [_getFilters] panics exactly when its argument is no readable slice of
    wrappers.  Otherwise it returns a slice of a new array whose length and
    capacity are the length of the argument and whose elements are the
    filters of the wrappers, in their order and none of them nil; every
    array that was in the heap, the argument's too, is as it was. *)
Theorem getFilters_copies_filters (inp : slice) (h : gmap loc array) :
  (_getFilters inp h = None ↔ wrappers h inp = None) ∧
  ∀ ws, wrappers h inp = Some ws →
    ∃ out h', _getFilters inp h = Some (out, h') ∧
      (ptr out ∉ dom h) ∧
      len out = length ws ∧ cap out = length ws ∧
      filters h' out = Some (unwrapped ws) ∧
      (∀ (i : nat) w, ws !! i = Some w →
         unwrapped ws !! i = Some (Some (Ext.filter w))) ∧
      (∀ l, l ∈ dom h → h' !! l = h !! l) ∧
      wrappers h' inp = Some ws.
Proof.
  rewrite ExtMemSpec.getFilters_spec. split.
  - destruct (wrappers h inp); simpl; split; done.
  - intros ws Hws. rewrite Hws. simpl. eexists _, _. split; [reflexivity|].
    simpl. split; [apply is_fresh|]. split; [done|]. split; [done|].
    split; [|split; [|split]].
    + rewrite ExtMemSpec.filters_insert by (by rewrite length_fmap).
      by rewrite take_ge by (by rewrite length_fmap).
    + intros i w Hi. unfold unwrapped. by rewrite list_lookup_fmap, Hi.
    + intros l Hl. apply lookup_insert_ne. intros <-.
      by apply (is_fresh (dom h)).
    + rewrite ExtMemSpec.wrappers_insert_FilterArray; [done|].
      intros ws'. apply ExtMemSpec.fresh_not_wrappers.
Qed.

End ExtMemFacts.

(** ** More on the exchange: the shape of every run, the dispatch *)

Module BackendFacts.
Import Go Backend Dispatch.

(** The calls to the backend. *)
Definition is_invoke (ev : event) : bool :=
  match ev with
  | Called (Invoke _) _ => true
  | Called _ _ => false
  end.

Section Exchange.

Variable StatusServerError : Z.
Variable ErrorCodeGatewayInternal : string.
Variable W : Type.

Local Abbreviation DoExchange :=
  (Backend.DoExchange StatusServerError ErrorCodeGatewayInternal).

(** Every run of [DoExchange] asks the context for the endpoint, then
    invokes the backend with the service of that endpoint, once.  It writes
    the response in full or not at all: when it returns nil its last three
    calls are the three setters and no call before them is one; when it
    returns an error no call is a setter. *)
Theorem exchange_writes_all_or_nothing (e : collaborators W) (w : W) :
  let r := (run e DoExchange w).1.1 in
  let t := (run e DoExchange w).2 in
  (∃ ep resp ierr rest,
     t = Called CtxEndpoint ep :: Called (Invoke (Service ep)) (resp, ierr) :: rest ∧
     List.filter is_invoke rest = []) ∧
  ((r = None ∧
    ∃ code hs b pre,
      t = pre ++ [Called (SetStatusCode code) tt; Called (SetHeaders hs) tt;
                  Called (SetBody b) tt] ∧
      BackendSpec.setter_calls pre = [])
   ∨ (∃ err, r = Some err ∧ BackendSpec.setter_calls t = [])).
Proof.
  unfold Backend.DoExchange. rewrite BackendSpec.run_perform.
  destruct (e _ CtxEndpoint w) as [ep w1]. rewrite BackendSpec.run_perform.
  destruct (e _ (Invoke (Service ep)) w1) as [[resp [ierr|]] w2].
  { rewrite BackendSpec.run_ret. simpl. split; [by eexists _, _, _, _|].
    right. by eexists. }
  rewrite BackendSpec.run_perform.
  destruct (e _ (LoadBackendResponseDecoder (RpcProto (Service ep))) w2)
    as [[d|] w3].
  2:{ rewrite BackendSpec.run_ret. simpl. split; [by eexists _, _, _, _|].
      right. by eexists. }
  rewrite BackendSpec.run_perform.
  destruct (e _ (Decode d resp) w3) as [[[[code hs] b] [cause|]] w4].
  { rewrite BackendSpec.run_ret. simpl. split; [by eexists _, _, _, _|].
    right. by eexists. }
  rewrite BackendSpec.run_perform. destruct (e _ (SetStatusCode code) w4) as [[] w5].
  rewrite BackendSpec.run_perform. destruct (e _ (SetHeaders hs) w5) as [[] w6].
  rewrite BackendSpec.run_perform. destruct (e _ (SetBody b) w6) as [[] w7].
  rewrite BackendSpec.run_ret. simpl. split; [by eexists _, _, _, _|].
  left. split; [done|]. eexists code, hs, b, [_; _; _; _]. by split.
Qed.

(** With [DoInvoke] as its backend, [DoExchange] on an endpoint whose
    protocol has no registered backend returns the error of the unknown
    protocol as [DoInvoke] made it, after two calls: it looks up no decoder
    and writes nothing to the response. *)
Theorem exchange_over_unknown_protocol
    (backends : gmap string (BackendService → W → (value * option StateError) * W))
    (e : collaborators W) (w w1 : W) (ep : Endpoint) :
  e _ CtxEndpoint w = (ep, w1) →
  backends !! RpcProto (Service ep) = None →
  let err := {| StatusCode := StatusServerError;
                ErrorCode := ErrorCodeGatewayInternal;
                Message := "GATEWAY:UNKNOWN_PROTOCOL";
                Internal := Some (fmt_Errorf ("unknown protocol:"
                                              +:+ RpcProto (Service ep))) |} in
  run (dispatching W StatusServerError ErrorCodeGatewayInternal backends e)
      DoExchange w
  = (Some err, w1,
     [Called CtxEndpoint ep; Called (Invoke (Service ep)) (VNil, Some err)]).
Proof.
  intros Hep Hnone err. unfold Backend.DoExchange.
  rewrite BackendSpec.run_perform. cbn [dispatching]. rewrite Hep.
  rewrite BackendSpec.run_perform. cbn [dispatching].
  unfold Dispatch.DoInvoke, LoadBackend. rewrite Hnone.
  by rewrite BackendSpec.run_ret.
Qed.

End Exchange.

Lemma exchange_over_unknown_protocol_witness :
  run (dispatching Response 500 "GATEWAY:INTERNAL" ∅ BackendSpec.succeeding)
      (Backend.DoExchange 500 "GATEWAY:INTERNAL") BackendSpec.blank_response
  = (Some (mkStateError 500 "GATEWAY:INTERNAL" "GATEWAY:UNKNOWN_PROTOCOL"
             (Some (fmt_Errorf "unknown protocol:http"))),
     BackendSpec.blank_response,
     [Called CtxEndpoint BackendSpec.http_endpoint;
      Called (Invoke (Service BackendSpec.http_endpoint))
        (VNil, Some (mkStateError 500 "GATEWAY:INTERNAL" "GATEWAY:UNKNOWN_PROTOCOL"
                       (Some (fmt_Errorf "unknown protocol:http"))))]).
Proof.
  apply (exchange_over_unknown_protocol 500 "GATEWAY:INTERNAL" Response ∅
           BackendSpec.succeeding BackendSpec.blank_response
           BackendSpec.blank_response BackendSpec.http_endpoint); reflexivity.
Defined.

End BackendFacts.

(** ** More on the resolvers: the escaping, the outcomes of the transcoder,
    the casts to string, to map and to list *)

Module SupportFacts.
Import Go Support.

(** The inverse of the escaping: a backslash before a double quote is
    dropped. *)
Fixpoint unescape (s : string) : string :=
  match s with
  | EmptyString => EmptyString
  | String c rest =>
      match rest with
      | String c' rest' =>
          if Ascii.eqb c backslash && Ascii.eqb c' dquote
          then String dquote (unescape rest')
          else String c (unescape rest)
      | EmptyString => String c EmptyString
      end
  end.

(** The number of double quotes of a text. *)
Fixpoint quotes (s : string) : nat :=
  match s with
  | EmptyString => 0
  | String c rest => (if Ascii.eqb c dquote then 1 else 0) + quotes rest
  end.

Lemma JSONStringValueEncode_head s c rest :
  JSONStringValueEncode s = String c rest → c ≠ dquote.
Proof.
  destruct s as [|c0 s]; simpl; [discriminate|].
  destruct (Ascii.eqb_spec c0 dquote) as [->|Hne]; intros [= <- _]; [|done].
  discriminate.
Qed.

Lemma unescape_encode s : unescape (JSONStringValueEncode s) = s.
Proof.
  induction s as [|c s IH]; [reflexivity|]. simpl JSONStringValueEncode.
  destruct (Ascii.eqb_spec c dquote) as [->|Hne].
  - simpl. by rewrite IH.
  - destruct (JSONStringValueEncode s) as [|c' rest] eqn:E.
    + simpl. destruct s; [done|]. simpl in E. by destruct (Ascii.eqb a dquote).
    + pose proof (JSONStringValueEncode_head _ _ _ E) as Hc'.
      change (unescape (String c (String c' rest)))
        with (if Ascii.eqb c backslash && Ascii.eqb c' dquote
              then String dquote (unescape rest)
              else String c (unescape (String c' rest))).
      destruct (Ascii.eqb_spec c' dquote) as [->|_]; [done|].
      rewrite andb_false_r. by rewrite IH.
Qed.

(** The escaping loses nothing: dropping the backslash before each double
    quote gives the text back, so two texts with the same escaping are the
    same text. *)
Theorem JSONStringValueEncode_is_injective :
  (∀ s, unescape (JSONStringValueEncode s) = s) ∧
  (∀ s1 s2, JSONStringValueEncode s1 = JSONStringValueEncode s2 → s1 = s2).
Proof.
  split; [apply unescape_encode|].
  intros s1 s2 H. by rewrite <- (unescape_encode s1), H, unescape_encode.
Qed.

(** The escaping adds one character for each double quote, leaves a text
    with no double quote as it is, and in its result every double quote
    comes right after a backslash. *)
Theorem JSONStringValueEncode_guards_every_quote (s : string) :
  String.length (JSONStringValueEncode s) = (String.length s + quotes s)%nat ∧
  (quotes s = 0%nat → JSONStringValueEncode s = s) ∧
  (∀ i : nat, String.get i (JSONStringValueEncode s) = Some dquote →
     ∃ i' : nat, i = S i' ∧
       String.get i' (JSONStringValueEncode s) = Some backslash).
Proof.
  split; [|split].
  - induction s as [|c s IH]; [done|]. simpl.
    destruct (Ascii.eqb c dquote); simpl; rewrite IH; lia.
  - induction s as [|c s IH]; [done|]. simpl.
    destruct (Ascii.eqb c dquote); simpl; [lia|]. intros H. by rewrite IH.
  - induction s as [|c s IH]; intros i; simpl.
    + by destruct i.
    + destruct (Ascii.eqb_spec c dquote) as [->|Hne].
      * destruct i as [|[|i]]; simpl.
        -- discriminate.
        -- intros _. by exists 0%nat.
        -- intros (i' & -> & Hi')%IH. by exists (S (S i')).
      * destruct i as [|i]; simpl.
        -- intros [= ->]. done.
        -- intros (i' & -> & Hi')%IH. by exists (S i').
Qed.

Lemma range_fields_None entries : ∀ fields,
  range_fields entries fields = None ↔ ∃ key, (key, []) ∈ entries.
Proof.
  induction entries as [|[key values] entries IH]; intros fields; simpl.
  - split; [done|]. intros [key H]. by apply elem_of_nil in H.
  - destruct values as [|v values].
    + split; [|done]. intros _. exists key. by left.
    + rewrite (SupportSpec.field_spec key (v :: values)) by done. simpl.
      rewrite IH. split; intros [key' H]; exists key'.
      * by right.
      * apply elem_of_cons in H as [[= _ ?]|H]; done.
Qed.

Section Resolvers.

Context {L : Library} {N : Names}.

(** [JSONBytesFromQueryString] returns the error of [url.ParseQuery] as it
    is, with nil bytes; it panics exactly when a key of the parsed values has
    no value at all; and for no key it returns the empty object. *)
Theorem JSONBytesFromQueryString_outcomes (queryStr : string)
    (queryValues : Values) :
  (∀ err, url_ParseQuery queryStr = (queryValues, Some err) →
          JSONBytesFromQueryString queryStr = Return EmptyString (Some err)) ∧
  (url_ParseQuery queryStr = (queryValues, None) →
   range_Values queryValues ≡ₚ map_to_list queryValues →
   (JSONBytesFromQueryString queryStr = Panic ↔
      ∃ key, queryValues !! key = Some []) ∧
   (queryValues = ∅ → JSONBytesFromQueryString queryStr = Return "{}" None)).
Proof.
  unfold JSONBytesFromQueryString. split.
  - by intros err ->.
  - intros -> Hrange. split.
    + destruct (range_fields (range_Values queryValues) []) as [fields|] eqn:E.
      * split; [done|]. intros [key Hkey].
        assert (range_fields (range_Values queryValues) [] = None); [|congruence].
        apply range_fields_None. exists key. rewrite Hrange.
        by apply elem_of_map_to_list.
      * split; [|done]. intros _. apply range_fields_None in E as [key Hkey].
        exists key. rewrite Hrange in Hkey. by apply elem_of_map_to_list in Hkey.
    + intros ->. rewrite map_to_list_empty in Hrange.
      apply Permutation_nil_r in Hrange. by rewrite Hrange.
Qed.

(** The values that [_toBytes0] takes bytes from: bytes, a string, a
    reader. *)
Definition gives_bytes (v : value) : bool :=
  match v with
  | VBytes _ | VString _ | VReader _ _ _ => true
  | _ => false
  end.

(** [CastDecodeToString] by the shape of the raw value.  A string is
    returned as it is under every MIME type but the one of a string map; so
    are bytes and what a reader gives, under every MIME type but the two of
    text and of a string map; the error of a reader is returned, also when
    its text is the text of [errCastToByteTypeNotSupported], unless it is
    that very value; under the MIME type of text every value that is no
    string panics; and a value that is no bytes, no string and no reader,
    under any other MIME type, is left to [cast.ToStringE]. *)
Theorem CastDecodeToString_by_shape (mime : string) :
  (mime ≠ ValueMIMETypeGoStringMap ∨ mime = ValueMIMETypeGoText →
   ∀ s, CastDecodeToString (mkMIMEValue mime (VString s)) = Return s None) ∧
  (∀ v, (∀ s, v ≠ VString s) →
        CastDecodeToString (mkMIMEValue ValueMIMETypeGoText v) = Panic) ∧
  (mime ≠ ValueMIMETypeGoText → mime ≠ ValueMIMETypeGoStringMap →
   (∀ bs, CastDecodeToString (mkMIMEValue mime (VBytes bs)) = Return bs None) ∧
   (∀ data closer,
      CastDecodeToString (mkMIMEValue mime (VReader data None closer))
      = Return data None) ∧
   (∀ data err closer, err ≠ errCastToByteTypeNotSupported →
      CastDecodeToString (mkMIMEValue mime (VReader data (Some err) closer))
      = Return EmptyString (Some err)) ∧
   (∀ data closer,
      CastDecodeToString
        (mkMIMEValue mime
           (VReader data (Some (errors_New "cannot convert value to []byte")) closer))
      = Return EmptyString (Some (errors_New "cannot convert value to []byte"))) ∧
   (∀ v, gives_bytes v = false →
      CastDecodeToString (mkMIMEValue mime v)
      = Return (cast_ToStringE v).1 (cast_ToStringE v).2)).
Proof.
  unfold CastDecodeToString. cbn [MIMEType Value]. split; [|split].
  - intros Hmime s. case_decide; [done|]. case_decide; [|done].
    destruct Hmime; congruence.
  - intros v Hv. case_decide; [|done]. destruct v; try done.
    by destruct (Hv s).
  - intros H1 H2. do 2 (case_decide; [done|]). split; [done|]. split; [done|].
    split; [|split].
    + intros data err closer Herr. simpl. case_decide; [congruence|done].
    + intros data closer. cbn [_toBytes0]. by rewrite decide_False.
    + intros v Hv. destruct v; try discriminate Hv;
        cbn [_toBytes0]; by rewrite decide_True.
Qed.

(** [CastDecodeToStringMap] on a form payload: under a MIME type that names
    the form encoding, and not JSON, the bytes of the value are parsed as a
    query, transcoded by [JSONBytesFromQueryString] and the JSON text is
    unmarshalled; the value and the error returned are those of the
    unmarshalling.  The error of the query parser is returned as it is. *)
Theorem CastDecodeToStringMap_transcodes_forms (mime : string) (v : value)
    (bs : string) (queryValues : Values) :
  mime ≠ ValueMIMETypeGoStringMap →
  mime ≠ ValueMIMETypeGoText →
  mime ≠ ValueMIMETypeGoObject →
  strings_Contains mime "application/json" = false →
  strings_Contains mime "application/x-www-form-urlencoded" = true →
  _toBytes0 v = (bs, None) →
  (∀ err, url_ParseQuery bs = (queryValues, Some err) →
     CastDecodeToStringMap (mkMIMEValue mime v) = Return ∅ (Some err)) ∧
  (url_ParseQuery bs = (queryValues, None) →
   map_Forall (λ _ values, values ≠ []) queryValues →
   range_Values queryValues ≡ₚ map_to_list queryValues →
   CastDecodeToStringMap (mkMIMEValue mime v)
   = Return
       (json_Unmarshal (json_object (json_member <$> range_Values queryValues))).1
       (json_Unmarshal (json_object (json_member <$> range_Values queryValues))).2).
Proof.
  intros H1 H2 H3 Hjson Hform Hbytes.
  unfold CastDecodeToStringMap. cbn [MIMEType Value].
  do 3 (case_decide; [done|]). rewrite Hjson, Hform.
  unfold _toBytes. rewrite Hbytes. unfold JSONBytesFromQueryString. split.
  - by intros err ->.
  - intros -> Hne Hrange.
    rewrite (SupportSpec.range_fields_spec (range_Values queryValues) []).
    + reflexivity.
    + rewrite Hrange. apply Forall_forall. intros [key values] Hin.
      apply elem_of_map_to_list in Hin. apply (Hne key values Hin).
Qed.

(** [CastDecodeToStringMap] on JSON content: under a MIME type that names
    JSON, and is none of the three in-memory ones, the bytes of the value are
    unmarshalled as they are, also when the MIME type names the form encoding
    too; a value that gives no bytes is an error that wraps the cause. *)
Theorem CastDecodeToStringMap_parses_json (mime : string) (v : value) :
  mime ≠ ValueMIMETypeGoStringMap →
  mime ≠ ValueMIMETypeGoText →
  mime ≠ ValueMIMETypeGoObject →
  strings_Contains mime "application/json" = true →
  (∀ bs, _toBytes0 v = (bs, None) →
     CastDecodeToStringMap (mkMIMEValue mime v)
     = Return (json_Unmarshal bs).1 (json_Unmarshal bs).2) ∧
  (∀ bs err, _toBytes0 v = (bs, Some err) →
     ∃ msg, CastDecodeToStringMap (mkMIMEValue mime v)
            = Return ∅ (Some (fmt_Errorf_w msg err))).
Proof.
  intros H1 H2 H3 Hjson. unfold CastDecodeToStringMap. cbn [MIMEType Value].
  do 3 (case_decide; [done|]). rewrite Hjson. unfold _toBytes. split.
  - by intros bs ->.
  - intros bs err ->. by eexists.
Qed.

(** [CastToArrayList] never splits a value: it returns one element and no
    error, or no element and an error.  Of the generic types only the first
    counts, and when its resolver is the list resolver the element is the raw
    value in a sequence of its own, whatever the other generic types are. *)
Theorem CastToArrayList_never_splits (reg : gmap string TypedValueResolver)
    (genericTypes : list string) (mimeV : MIMEValue) :
  match CastToArrayList reg genericTypes mimeV with
  | Panic => True
  | Return l None => length l = 1%nat
  | Return l (Some _) => l = []
  end ∧
  (∀ typeClass rest,
     CastToArrayList reg (typeClass :: rest) mimeV
     = CastToArrayList reg [typeClass] mimeV) ∧
  (∀ typeClass rest,
     LoadTypedValueResolver reg typeClass = Some listResolver →
     CastToArrayList reg (typeClass :: rest) mimeV
     = Return [VSlice [Value mimeV]] None).
Proof.
  split; [|split].
  - destruct genericTypes as [|typeClass rest]; simp CastToArrayList; [done|].
    destruct (LoadTypedValueResolver reg typeClass) as [[f|]|]; simpl;
      simp CastToArrayList; simpl; [|done|done].
    by destruct (f typeClass [] mimeV) as [|v' [err|]].
  - intros typeClass rest. simp CastToArrayList.
    by destruct (LoadTypedValueResolver reg typeClass) as [[f|]|].
  - intros typeClass rest Hload. simp CastToArrayList. rewrite Hload. simpl.
    by simp CastToArrayList.
Qed.

(** *** What [init] registers *)

Definition init_entries : list (string * TypedValueResolver) :=
  [ ("string", stringResolver); ("String", stringResolver);
    (JavaLangStringClassName, stringResolver);
    ("int", integerResolver); ("Integer", integerResolver);
    (JavaLangIntegerClassName, integerResolver);
    ("int64", longResolver); ("long", longResolver); ("Long", longResolver);
    (JavaLangLongClassName, longResolver);
    ("float", float32Resolver); ("Float", float32Resolver);
    (JavaLangFloatClassName, float32Resolver);
    ("double", float64Resolver); ("Double", float64Resolver);
    (JavaLangDoubleClassName, float64Resolver);
    ("bool", booleanResolver); ("Boolean", booleanResolver);
    (JavaLangBooleanClassName, booleanResolver);
    ("map", mapResolver); ("Map", mapResolver);
    (JavaUtilMapClassName, mapResolver);
    ("slice", listResolver); ("List", listResolver);
    (JavaUtilListClassName, listResolver);
    (DefaultTypedValueResolverName, defaultResolver) ].

(** The names under which [init] registers. *)
Definition init_names : list string := init_entries.*1.

Definition store_all (entries : list (string * TypedValueResolver))
    (reg : gmap string TypedValueResolver) : gmap string TypedValueResolver :=
  foldl (λ reg '(typeName, resolver),
           StoreTypedValueResolver typeName resolver reg) reg entries.

(** The resolver of the last entry for a name. *)
Fixpoint last_entry (name : string)
    (entries : list (string * TypedValueResolver)) : option TypedValueResolver :=
  match entries with
  | [] => None
  | (typeName, resolver) :: entries' =>
      match last_entry name entries' with
      | Some r => Some r
      | None => if decide (typeName = name) then Some resolver else None
      end
  end.

Lemma init_store_all reg : init reg = store_all init_entries reg.
Proof. reflexivity. Qed.

Lemma store_all_lookup entries : ∀ reg name,
  store_all entries reg !! name =
  match last_entry name entries with
  | Some r => Some r
  | None => reg !! name
  end.
Proof.
  induction entries as [|[typeName resolver] entries IH]; intros reg name;
    [done|].
  change (store_all ((typeName, resolver) :: entries) reg)
    with (store_all entries (StoreTypedValueResolver typeName resolver reg)).
  rewrite IH. simpl. destruct (last_entry name entries); [done|].
  unfold StoreTypedValueResolver. case_decide as Hname.
  - subst. by rewrite lookup_insert_eq.
  - by rewrite lookup_insert_ne.
Qed.

Lemma last_entry_None name entries :
  last_entry name entries = None ↔ name ∉ entries.*1.
Proof.
  induction entries as [|[typeName resolver] entries IH]; simpl.
  - split; [|done]. intros _ H. by apply elem_of_nil in H.
  - rewrite not_elem_of_cons. destruct (last_entry name entries) eqn:E.
    + split; [done|]. intros [_ H]. by apply IH in H.
    + case_decide as Hname.
      * split; [done|]. intros [H _]. by destruct H.
      * split; [|done]. intros _. split; [congruence|by apply IH].
Qed.

(** [init] registers over what it finds: a name that is none of its own keeps
    the resolver it had, what it registers under its own names does not
    depend on what was registered before, running it again changes nothing,
    and after it the lookup with the fallback to the default name finds a
    resolver for every name. *)
Theorem init_registers_over_what_it_finds (reg : gmap string TypedValueResolver) :
  (∀ name, name ∉ init_names → init reg !! name = reg !! name) ∧
  (∀ name reg', name ∈ init_names → init reg !! name = init reg' !! name) ∧
  init (init reg) = init reg ∧
  (∀ name, is_Some (LoadTypedValueResolver (init reg) name)).
Proof.
  rewrite !init_store_all. split; [|split; [|split]].
  - intros name Hname. rewrite store_all_lookup.
    apply last_entry_None in Hname. by rewrite Hname.
  - intros name reg' Hname. rewrite init_store_all, !store_all_lookup.
    destruct (last_entry name init_entries) eqn:E; [done|].
    by apply last_entry_None in E.
  - apply map_eq. intros name. rewrite !store_all_lookup.
    by destruct (last_entry name init_entries).
  - intros name. unfold LoadTypedValueResolver.
    destruct (store_all init_entries reg !! name) eqn:E; [by eexists|].
    rewrite <- init_store_all. rewrite SupportSpec.init_default. by eexists.
Qed.

End Resolvers.

#[local] Existing Instances Sample.library Sample.names.

Lemma CastDecodeToStringMap_transcodes_forms_witness :
  CastDecodeToStringMap
    (mkMIMEValue "application/x-www-form-urlencoded" (VString "a=1&a=2&b=3"))
  = Return ∅ (Some Sample.unsupported).
Proof.
  assert (Hne : map_Forall (λ (_ : string) (values : list string), values ≠ [])
                  Sample.example_values).
  { apply map_Forall_insert_2; [discriminate|].
    apply map_Forall_insert_2; [discriminate|]. apply map_Forall_empty. }
  refine (proj2 (CastDecodeToStringMap_transcodes_forms
            "application/x-www-form-urlencoded" (VString "a=1&a=2&b=3")
            "a=1&a=2&b=3" Sample.example_values _ _ _ _ _ _) _ Hne (reflexivity _));
    try discriminate; reflexivity.
Defined.

Lemma CastDecodeToStringMap_parses_json_witness :
  CastDecodeToStringMap
    (mkMIMEValue "application/json; charset=UTF-8" (VBytes "{}"))
  = Return ∅ (Some Sample.unsupported).
Proof.
  refine (proj1 (CastDecodeToStringMap_parses_json
            "application/json; charset=UTF-8" (VBytes "{}") _ _ _ _) "{}" _);
    try discriminate; reflexivity.
Defined.

End SupportFacts.

(** ** Properties of the permission filter *)

Module PermissionSpec.
Import Go Permission.

(** What the calls of a run returned, by the collaborator. *)
Definition next_answers (t : list event) : list (option InvokeError) :=
  omap (λ ev, match ev with Called Next x => Some x | _ => None end) t.

Definition endpoints (t : list event) : list Endpoint :=
  omap (λ ev, match ev with Called CtxEndpoint ep => Some ep | _ => None end) t.

Definition attributes (t : list event) : list (string * (value * bool)) :=
  omap (λ ev, match ev with
              | Called (CtxAttrValue name) x => Some (name, x)
              | _ => None
              end) t.

Definition loads (t : list event)
  : list (ref * string * loader * (value * option error)) :=
  omap (λ ev, match ev with
              | Called (GetOrLoad cache key load) x => Some (cache, key, load, x)
              | _ => None
              end) t.

(** The calls of the provider in a run, with what they were given. *)
Definition provider_calls (t : list event) : list (ref * string * string * string) :=
  omap (λ ev, match ev with
              | Called (Provider f subjectId method pattern) _ =>
                  Some (f, subjectId, method, pattern)
              | _ => None
              end) t.

(** A call of the provider of a loader, with the arguments of the loader. *)
Definition calls_provider (l : loader) (ev : event) : Prop :=
  ∃ f x, load_provider l = Some f ∧
         ev = Called (Provider f (load_subjectId l) (load_method l)
                        (load_pattern l)) x.

(** The calls of a run of [verify] that reaches the cache. *)
Definition verified (subject : value) (ep : Endpoint) (cache : ref) (key : string)
    (load : loader) (runs : nat) (provided : list event)
    (answer : value * option error) `{!Flux} : list event :=
  [Called (CtxAttrValue XJwtSubject) (subject, true);
   Called CtxEndpoint ep;
   Called (LoaderRuns cache key) runs]
  ++ provided ++ [Called (GetOrLoad cache key load) answer].

#[local] Arguments verified : simpl never.

Lemma run_filter_perform {W R X : Type} (e : collaborators W) (c : call X)
    (k : X → prog R) (w : W) :
  run e (perform c ≫= k) w =
    let '(x, w1) := e _ c w in
    '(r, w2, t) ← run e (k x) w1;
    Some (r, w2, Called c x :: t).
Proof. reflexivity. Qed.

Lemma run_filter_ret {W R : Type} (e : collaborators W) (r : R) (w : W) :
  run e (mret r) w = Some (r, w, []).
Proof. reflexivity. Qed.

Lemma run_Next {W : Type} (e : collaborators W) (w : W) :
  run e (perform Next) w = Some ((e _ Next w).1, (e _ Next w).2,
                                 [Called Next (e _ Next w).1]).
Proof. unfold perform. simpl. by destruct (e _ Next w). Qed.

Lemma run_bind {W A B : Type} (e : collaborators W) (p : prog A)
    (k : A → prog B) : ∀ w,
  run e (p ≫= k) w =
    '(a, w1, t1) ← run e p w;
    '(b, w2, t2) ← run e (k a) w1;
    Some (b, w2, t1 ++ t2).
Proof.
  induction p as [a| |X c k' IH]; intros w.
  - change (run e (k a) w = '(b, w2, t2) ← run e (k a) w; Some (b, w2, t2)).
    by destruct (run e (k a) w) as [[[b w2] t2]|].
  - reflexivity.
  - change (run e (Do c k' ≫= k) w)
      with (let '(x, w1) := e _ c w in
            '(r, w2, t) ← run e (k' x ≫= k) w1; Some (r, w2, Called c x :: t)).
    simpl. destruct (e _ c w) as [x w1]. rewrite IH.
    destruct (run e (k' x) w1) as [[[a w2] t1]|]; simpl; [|done].
    by destruct (run e (k a) w2) as [[[b w3] t2]|].
Qed.

(** The calls of the loader are no calls of the context, of the cache or of
    the next handler. *)
Lemma provider_calls_only (l : loader) (t : list event) :
  Forall (calls_provider l) t →
  next_answers t = [] ∧ attributes t = [] ∧ endpoints t = [] ∧ loads t = [] ∧
  (∀ f subjectId method pattern,
     (f, subjectId, method, pattern) ∈ provider_calls t →
     load_provider l = Some f ∧
     (subjectId, method, pattern) =
       (load_subjectId l, load_method l, load_pattern l)).
Proof.
  induction 1 as [|ev t (f & x & Hf & ->) _ (Hn & Ha & He & Hl & Hp)].
  - do 4 (split; [done|]). intros f subjectId method pattern Hin.
    by apply elem_of_nil in Hin.
  - unfold next_answers, attributes, endpoints, loads, provider_calls in *.
    cbn [omap list_omap]. do 4 (split; [done|]).
    intros f' subjectId method pattern [Heq|Hin]%elem_of_cons.
    + injection Heq as -> -> -> ->. by split.
    + by apply Hp.
Qed.

(** What is read of the calls of a run of [verify] that reaches the cache. *)
Lemma verified_calls `{!Flux} (l : loader) (subject : value) (ep : Endpoint)
    (cache : ref) (key : string) (load : loader) (runs : nat)
    (provided : list event) (answer : value * option error) :
  Forall (calls_provider l) provided →
  let t := verified subject ep cache key load runs provided answer in
  next_answers t = [] ∧
  attributes t = [(XJwtSubject, (subject, true))] ∧
  endpoints t = [ep] ∧
  loads t = [(cache, key, load, answer)] ∧
  (∀ f subjectId method pattern,
     (f, subjectId, method, pattern) ∈ provider_calls t →
     load_provider l = Some f ∧
     (subjectId, method, pattern) =
       (load_subjectId l, load_method l, load_pattern l)).
Proof.
  intros (Hn & Ha & He & Hl & Hp)%provider_calls_only. cbv zeta.
  unfold verified, next_answers, attributes, endpoints, loads, provider_calls in *.
  cbn [app omap list_omap]. rewrite !omap_app. cbn [omap list_omap].
  rewrite Hn, Ha, He, Hl. do 4 (split; [done|]).
  intros f subjectId method pattern [Hin|Hin%elem_of_nil]%elem_of_app; [|done].
  by apply Hp.
Qed.

Section Filter.

Context {F : Flux}.
Variable W : Type.
Variable e : collaborators W.

(** The error of a cache that failed with [cause]. *)
Definition load_access (cause : error) : InvokeError :=
  {| StatusCode := StatusServerError;
     Message := "PERMISSION:LOAD_ACCESS";
     Internal := Some cause |}.

(** The loader panics exactly when it runs with a nil provider. *)
Lemma run_loading_panics (l : loader) (n : nat) : ∀ w,
  run e (loading l n) w = None ↔ n ≠ 0%nat ∧ load_provider l = None.
Proof.
  induction n as [|n IH]; intros w.
  - simpl. split; [done|]. by intros [? _].
  - cbn [loading]. rewrite run_bind. unfold call_loader.
    destruct (load_provider l) as [f|] eqn:Hf.
    + change (run e (perform (Provider f (load_subjectId l) (load_method l)
                                (load_pattern l))) w)
        with (let '(x, w1) := e _ (Provider f (load_subjectId l) (load_method l)
                                     (load_pattern l)) w in
              Some (x, w1, [Called (Provider f (load_subjectId l) (load_method l)
                                      (load_pattern l)) x])).
      destruct (e _ (Provider _ _ _ _) w) as [x w1]. cbn [mbind option_bind].
      destruct (run e (loading l n) w1) as [[[u w2] t]|] eqn:Hrun.
      * simpl. split; [done|]. by intros [_ ?].
      * apply IH in Hrun as [_ Hrun]. congruence.
    + simpl. split; [done|]. by intros [? _].
Qed.

(** The calls that the loader makes are calls of [p.provider] with the
    subject, the method and the pattern, one for each of its runs. *)
Lemma run_loading_calls (l : loader) (n : nat) : ∀ w u w' t,
  run e (loading l n) w = Some (u, w', t) →
  Forall (calls_provider l) t ∧ length t = n.
Proof.
  induction n as [|n IH]; intros w u w' t.
  - simpl. by intros [= <- <- <-].
  - cbn [loading]. rewrite run_bind. unfold call_loader.
    destruct (load_provider l) as [f|] eqn:Hf; [|done].
    change (run e (perform (Provider f (load_subjectId l) (load_method l)
                              (load_pattern l))) w)
      with (let '(x, w1) := e _ (Provider f (load_subjectId l) (load_method l)
                                   (load_pattern l)) w in
            Some (x, w1, [Called (Provider f (load_subjectId l) (load_method l)
                                    (load_pattern l)) x])).
    destruct (e _ (Provider _ _ _ _) w) as [x w1]. cbn [mbind option_bind].
    destruct (run e (loading l n) w1) as [[[u' w2] t']|] eqn:Hrun; [|done].
    simpl. intros [= <- <- <-]. apply IH in Hrun as [Hall Hlen].
    split; [|by rewrite <- Hlen].
    constructor; [|done]. by exists f, x.
Qed.

(** What [verify] does, by what the context, the cache and the provider
    answer. *)
Lemma run_verify (p : permissionFilter) (w : W) :
  run e (verify p) w =
    let '((subject, ok), w1) := e _ (CtxAttrValue XJwtSubject) w in
    let attr := Called (CtxAttrValue XJwtSubject) (subject, ok) in
    if negb ok then Some (Some ErrPermissionSubjectNotFound, w1, [attr])
    else
      let '(ep, w2) := e _ CtxEndpoint w1 in
      match permCache p with
      | None => None
      | Some cache =>
          let key := fmt_Sprintf "%s@%s#%s"
                       [subject; VString (HttpMethod ep); VString (HttpPattern ep)] in
          let load := mkLoader (provider p) (pkg_ToString subject)
                        (HttpMethod ep) (HttpPattern ep) in
          let '(runs, w3) := e _ (LoaderRuns cache key) w2 in
          '(_, w4, provided) ← run e (loading load runs) w3;
          let '((allowed, err), w5) := e _ (GetOrLoad cache key load) w4 in
          Some (match err with
                | Some cause => Some (load_access cause)
                | None =>
                    match allowed with
                    | VBool true => None
                    | _ => Some ErrPermissionSubjectAccessDenied
                    end
                end,
                w5,
                verified subject ep cache key load runs provided (allowed, err))
      end.
Proof.
  unfold verify. rewrite run_filter_perform.
  destruct (e _ (CtxAttrValue XJwtSubject) w) as [[subject [|]] w1]; cbn [negb];
    [|done].
  rewrite run_filter_perform.
  destruct (e _ CtxEndpoint w1) as [ep w2].
  destruct (permCache p) as [cache|]; [|done].
  cbv zeta. rewrite run_filter_perform.
  destruct (e _ (LoaderRuns _ _) w2) as [runs w3].
  rewrite run_bind.
  destruct (run e (loading _ runs) w3) as [[[[] w4] provided]|]; [|done].
  cbn [mbind option_bind]. rewrite run_filter_perform.
  destruct (e _ (GetOrLoad _ _ _) w4) as [[allowed [cause|]] w5]; simpl; [done|].
  by destruct allowed as [| [|] | | | | | | | | | | | | |].
Qed.

(** [verify] never runs the next handler.  Without the subject attribute it
    returns [ErrPermissionSubjectNotFound] at once: the attribute is the only
    thing it has read, and it has asked no endpoint, no cache and no
    provider.  With the subject attribute it asks the cache exactly once,
    under the key made of the subject, the method and the pattern of the
    endpoint, with a loader for the same three, and what it returns is
    decided by the answer of the cache: nil when the answer is the boolean
    true with no error, [ErrPermissionSubjectAccessDenied] when it is
    anything else with no error, and the error of the cache as the cause of
    the error that is returned otherwise.  Each call of the provider is a
    call of [p.provider] with the subject as a string, the method and the
    pattern. *)
Theorem verify_admits_only_on_true (p : permissionFilter) (w w' : W)
    (r : option InvokeError) (t : list event) :
  run e (verify p) w = Some (r, w', t) →
  next_answers t = [] ∧
  (r = None ↔
     ∃ subject cache key load,
       attributes t = [(XJwtSubject, (subject, true))] ∧
       loads t = [(cache, key, load, (VBool true, None))]) ∧
  (∀ cache key load answer, loads t = [(cache, key, load, answer)] →
     permCache p = Some cache ∧
     ∃ subject ep,
       attributes t = [(XJwtSubject, (subject, true))] ∧ endpoints t = [ep] ∧
       key = fmt_Sprintf "%s@%s#%s"
               [subject; VString (HttpMethod ep); VString (HttpPattern ep)] ∧
       load = mkLoader (provider p) (pkg_ToString subject)
                (HttpMethod ep) (HttpPattern ep) ∧
       (∀ cause, answer.2 = Some cause → r = Some (load_access cause))) ∧
  (loads t = [] → r = Some ErrPermissionSubjectNotFound) ∧
  ((e _ (CtxAttrValue XJwtSubject) w).1.2 = false →
     r = Some ErrPermissionSubjectNotFound ∧
     w' = (e _ (CtxAttrValue XJwtSubject) w).2 ∧
     t = [Called (CtxAttrValue XJwtSubject) (e _ (CtxAttrValue XJwtSubject) w).1]) ∧
  ((e _ (CtxAttrValue XJwtSubject) w).1.2 = true →
     ∃ cache key load answer,
       loads t = [(cache, key, load, answer)] ∧
       (answer = (VBool true, None) → r = None) ∧
       (answer.1 ≠ VBool true → answer.2 = None →
          r = Some ErrPermissionSubjectAccessDenied) ∧
       (∀ cause, answer.2 = Some cause → r = Some (load_access cause)) ∧
       (∀ f subjectId method pattern,
          (f, subjectId, method, pattern) ∈ provider_calls t →
          provider p = Some f ∧
          (subjectId, method, pattern) =
            (load_subjectId load, load_method load, load_pattern load))).
Proof.
  rewrite run_verify.
  destruct (e _ (CtxAttrValue XJwtSubject) w) as [[subject [|]] w1]; cbn [negb].
  2:{ intros [= <- <- <-]. simpl. split; [done|].
      split; [|split; [done|split; [done|split; [done|done]]]].
      split; [done|]. by intros (? & ? & ? & ? & ? & ?). }
  destruct (e _ CtxEndpoint w1) as [ep w2].
  destruct (permCache p) as [cache|]; [|done].
  destruct (e _ (LoaderRuns _ _) w2) as [runs w3].
  destruct (run e (loading _ runs) w3) as [[[[] w4] provided]|] eqn:Hrun; [|done].
  cbn [mbind option_bind].
  destruct (e _ (GetOrLoad _ _ _) w4) as [[allowed err] w5].
  intros [= <- <- <-].
  apply run_loading_calls in Hrun as [Hall _].
  destruct (verified_calls _ subject ep cache
              (fmt_Sprintf "%s@%s#%s"
                 [subject; VString (HttpMethod ep); VString (HttpPattern ep)])
              (mkLoader (provider p) (pkg_ToString subject)
                 (HttpMethod ep) (HttpPattern ep))
              runs provided (allowed, err) Hall)
    as (Hnext & Hattr & Hep & Hloads & Hprov).
  rewrite Hnext, Hattr, Hep, Hloads.
  split; [done|]. split; [|split; [|split; [done|split; [done|]]]].
  - split.
    + destruct err as [cause|]; [done|].
      destruct allowed as [| [|] | | | | | | | | | | | | |]; try done.
      intros _. by eexists _, _, _, _.
    + by intros (? & ? & ? & ? & _ & [= _ _ _ -> ->]).
  - intros cache' key load answer [= <- <- <- <-]. split; [done|].
    exists subject, ep. repeat split. simpl. by intros cause ->.
  - intros _. eexists _, _, _, _. split; [done|]. cbn [fst snd].
    split; [by intros [= -> ->]|]. split; [|split].
    + intros Hne ->.
      by destruct allowed as [| [|] | | | | | | | | | | | | |].
    + by intros cause ->.
    + intros f subjectId method pattern Hin.
      apply Hprov in Hin as (Hf & Heq). simpl in Hf. split; [done|].
      by injection Heq as -> -> ->.
Qed.

(** [verify] panics in two cases, both with the subject attribute there: when
    the filter has no cache, since it calls a method of the nil cache; and
    when the filter has a cache but no provider and the cache runs the
    loader, since the loader calls the nil function.  In every other case it
    returns. *)
Theorem verify_panics_without_cache (p : permissionFilter) (w : W) :
  run e (verify p) w = None ↔
  ∃ subject w1 ep w2,
    e _ (CtxAttrValue XJwtSubject) w = ((subject, true), w1) ∧
    e _ CtxEndpoint w1 = (ep, w2) ∧
    (permCache p = None
     ∨ ∃ cache,
         permCache p = Some cache ∧ provider p = None ∧
         (e _ (LoaderRuns cache
                 (fmt_Sprintf "%s@%s#%s"
                    [subject; VString (HttpMethod ep); VString (HttpPattern ep)]))
            w2).1 ≠ 0%nat).
Proof.
  rewrite run_verify.
  destruct (e _ (CtxAttrValue XJwtSubject) w) as [[subject [|]] w1] eqn:Hattr;
    cbn [negb].
  2:{ split; [done|]. by intros (? & ? & ? & ? & [= _ ? _] & _). }
  destruct (e _ CtxEndpoint w1) as [ep w2] eqn:Hep.
  destruct (permCache p) as [cache|].
  2:{ split; [|done]. intros _. exists subject, w1, ep, w2. auto. }
  destruct (e _ (LoaderRuns _ _) w2) as [runs w3] eqn:Hruns.
  destruct (run e (loading _ runs) w3) as [[[[] w4] provided]|] eqn:Hrun.
  - cbn [mbind option_bind].
    destruct (e _ (GetOrLoad _ _ _) w4) as [[allowed err] w5].
    split; [done|].
    intros (subject' & w1' & ep' & w2' & [= <- <-] & Hep' & [?|Hno]); [done|].
    rewrite Hep in Hep'. injection Hep' as <- <-.
    destruct Hno as (cache' & [= <-] & Hnil & Hne).
    rewrite Hruns in Hne. simpl in Hne.
    assert (run e (loading (mkLoader (provider p) (pkg_ToString subject)
                              (HttpMethod ep) (HttpPattern ep)) runs) w3 = None)
      as Hpanic by (by apply run_loading_panics).
    congruence.
  - split; [|done]. intros _. exists subject, w1, ep, w2.
    split; [done|]. split; [done|]. right. exists cache.
    apply run_loading_panics in Hrun as [Hne Hnil]. rewrite Hruns.
    by repeat split.
Qed.

(** A disabled filter gives the next handler back as it is.  An enabled one,
    on a route that asks for no authorization, reads the endpoint and runs
    the next handler; it reads no attribute and asks no cache. *)
Theorem open_routes_pass_through (p : permissionFilter) (next : prog (option InvokeError)) :
  (disabled p = true → Invoke p next = next) ∧
  (disabled p = false →
   ∀ w, Authorize (e _ CtxEndpoint w).1 = false →
     run e (Invoke p next) w =
       '(r, w', t) ← run e next (e _ CtxEndpoint w).2;
       Some (r, w', Called CtxEndpoint (e _ CtxEndpoint w).1 :: t)).
Proof.
  unfold Invoke. split; [by intros ->|]. intros -> w Hopen.
  rewrite run_filter_perform. destruct (e _ CtxEndpoint w) as [ep w1]. simpl in *.
  by rewrite Hopen.
Qed.

(** Whatever the collaborators answer, the filter runs the next handler at
    most once, as its last call, and returns what the next handler returns.
    When it is enabled and the route asks for authorization, the next handler
    runs only after the subject attribute was found and the cache answered
    the boolean true with no error; when the next handler does not run the
    filter returns an error. *)
Theorem next_runs_only_when_permitted (p : permissionFilter) (w w' : W)
    (r : option InvokeError) (t : list event) :
  run e (Invoke p (perform Next)) w = Some (r, w', t) →
  (next_answers t = [r] ∧ last t = Some (Called Next r) ∧
   (disabled p = true ∨
    (∃ ep, endpoints t = [ep] ∧ Authorize ep = false) ∨
    (∃ subject cache key load,
       attributes t = [(XJwtSubject, (subject, true))] ∧
       loads t = [(cache, key, load, (VBool true, None))])))
  ∨ (next_answers t = [] ∧ disabled p = false ∧ ∃ err, r = Some err).
Proof.
  unfold Invoke. destruct (disabled p).
  { rewrite run_Next. intros [= <- <- <-]. left. simpl. auto. }
  rewrite run_filter_perform. destruct (e _ CtxEndpoint w) as [ep w1].
  destruct (Authorize ep) eqn:Hauth; cbn [negb].
  2:{ rewrite run_Next. cbn. intros [= <- <- <-]. left. simpl.
      repeat split. right; left. by exists ep. }
  rewrite run_bind, run_verify.
  destruct (e _ (CtxAttrValue XJwtSubject) w1) as [[subject [|]] w2]; cbn [negb].
  2:{ cbn. intros [= <- <- <-]. right. simpl. eauto. }
  destruct (e _ CtxEndpoint w2) as [ep' w3].
  destruct (permCache p) as [cache|]; [|done].
  destruct (e _ (LoaderRuns _ _) w3) as [runs w4].
  destruct (run e (loading _ runs) w4) as [[[[] w5] provided]|] eqn:Hrun; [|done].
  apply run_loading_calls in Hrun as [Hall _].
  cbn [mbind option_bind].
  destruct (e _ (GetOrLoad _ _ _) w5) as [[allowed err] w6].
  destruct (verified_calls _ subject ep' cache
              (fmt_Sprintf "%s@%s#%s"
                 [subject; VString (HttpMethod ep'); VString (HttpPattern ep')])
              (mkLoader (provider p) (pkg_ToString subject)
                 (HttpMethod ep') (HttpPattern ep'))
              runs provided (allowed, err) Hall)
    as (Hnext & Hattr & Hep & Hloads & _).
  destruct err as [cause|].
  { cbn. intros [= <- <- <-]. right. rewrite app_nil_r.
    split; [exact Hnext|eauto]. }
  destruct allowed as [| [|] | | | | | | | | | | | | |];
    try (cbn; intros [= <- <- <-]; right; rewrite app_nil_r;
         split; [exact Hnext|by eauto]).
  cbn [mbind option_bind]. rewrite run_Next. cbn [mbind option_bind fst snd].
  intros [= <- <- <-]. left.
  match goal with
  | |- context [Called CtxEndpoint ep :: ?a :: ?b :: ?c :: (provided ++ ?g) ++ [?x]] =>
      change (Called CtxEndpoint ep :: a :: b :: c :: (provided ++ g) ++ [x])
        with ((Called CtxEndpoint ep ::
                 verified subject ep' cache
                   (fmt_Sprintf "%s@%s#%s"
                      [subject; VString (HttpMethod ep'); VString (HttpPattern ep')])
                   (mkLoader (provider p) (pkg_ToString subject)
                      (HttpMethod ep') (HttpPattern ep'))
                   runs provided (VBool true, None)) ++ [x])
  end.
  split; [|split].
  - unfold next_answers in *. rewrite omap_app. cbn [omap list_omap].
    by rewrite Hnext.
  - apply last_snoc.
  - right; right. exists subject, cache. eexists _, _.
    unfold attributes, loads in *. rewrite !omap_app. cbn [omap list_omap].
    rewrite Hattr, Hloads. done.
Qed.

End Filter.

(** A filter with a cache and a provider, on a route that asks for
    authorization, with a subject in the context; the cache runs the loader
    once, the provider permits, and the cache answers what it is told to.
    And a context with no subject. *)
#[local] Instance sample_flux : Flux := {|
  XJwtSubject := "X-Jwt-Subject";
  StatusBadRequest := 400;
  StatusAccessDenied := 403;
  StatusServerError := 500;
  OrderFilterPermissionVerification := 100;
  pkg_ToString := λ v, match v with VString s => s | _ => EmptyString end;
  fmt_Sprintf := λ format _, format
|}.

Definition guarded_route : Endpoint := mkEndpoint true "GET" "/orders".
Definition enabled_filter : permissionFilter := mkPermissionFilter false (Some 1%nat) (Some 2%nat).

Definition answering (allowed : value) : collaborators unit :=
  λ X c,
    match c in call X return unit → X * unit with
    | CtxEndpoint => λ w, (guarded_route, w)
    | CtxAttrValue _ => λ w, ((VString "alice", true), w)
    | LoaderRuns _ _ => λ w, (1%nat, w)
    | Provider _ _ _ _ => λ w, ((true, None), w)
    | GetOrLoad _ _ _ => λ w, ((allowed, None), w)
    | Next => λ w, (None, w)
    end.

Definition anonymous : collaborators unit :=
  λ X c,
    match c in call X return unit → X * unit with
    | CtxAttrValue _ => λ w, ((VNil, false), w)
    | c => answering (VBool true) _ c
    end.

Definition admitted_trace : list event :=
  [Called CtxEndpoint guarded_route;
   Called (CtxAttrValue "X-Jwt-Subject") (VString "alice", true);
   Called CtxEndpoint guarded_route;
   Called (LoaderRuns 2%nat "%s@%s#%s") 1%nat;
   Called (Provider 1%nat "alice" "GET" "/orders") (true, None);
   Called (GetOrLoad 2%nat "%s@%s#%s" (mkLoader (Some 1%nat) "alice" "GET" "/orders"))
     (VBool true, None);
   Called Next None].

Definition refused_trace : list event :=
  [Called (CtxAttrValue "X-Jwt-Subject") (VString "alice", true);
   Called CtxEndpoint guarded_route;
   Called (LoaderRuns 2%nat "%s@%s#%s") 1%nat;
   Called (Provider 1%nat "alice" "GET" "/orders") (true, None);
   Called (GetOrLoad 2%nat "%s@%s#%s" (mkLoader (Some 1%nat) "alice" "GET" "/orders"))
     (VBool false, None)].

Lemma next_runs_only_when_permitted_witness :
  run (answering (VBool true)) (Invoke enabled_filter (perform Next)) tt
  = Some (None, tt, admitted_trace) ∧
  next_answers admitted_trace = [None].
Proof.
  assert (H : run (answering (VBool true)) (Invoke enabled_filter (perform Next)) tt
              = Some (None, tt, admitted_trace)) by reflexivity.
  split; [exact H|].
  destruct (next_runs_only_when_permitted unit (answering (VBool true))
              enabled_filter tt tt None admitted_trace H) as [[Hn _]|[Hn _]];
    [exact Hn|discriminate Hn].
Defined.

Lemma verify_admits_only_on_true_witness :
  (run (answering (VBool false)) (verify enabled_filter) tt
   = Some (Some ErrPermissionSubjectAccessDenied, tt, refused_trace) ∧
   next_answers refused_trace = [] ∧
   ∃ cache key load answer, loads refused_trace = [(cache, key, load, answer)]) ∧
  (run anonymous (verify enabled_filter) tt
   = Some (Some ErrPermissionSubjectNotFound, tt,
           [Called (CtxAttrValue "X-Jwt-Subject") (VNil, false)]) ∧
   next_answers [Called (CtxAttrValue "X-Jwt-Subject") (VNil, false)] = []).
Proof.
  assert (H : run (answering (VBool false)) (verify enabled_filter) tt
    = Some (Some ErrPermissionSubjectAccessDenied, tt, refused_trace))
    by reflexivity.
  assert (H' : run anonymous (verify enabled_filter) tt
    = Some (Some ErrPermissionSubjectNotFound, tt,
            [Called (CtxAttrValue "X-Jwt-Subject") (VNil, false)]))
    by reflexivity.
  split; (split; [done|]).
  - destruct (verify_admits_only_on_true unit (answering (VBool false))
                enabled_filter tt tt _ _ H)
      as (Hnext & _ & _ & _ & _ & Hpresent).
    split; [exact Hnext|].
    destruct (Hpresent eq_refl) as (cache & key & load & answer & Hloads & _).
    by exists cache, key, load, answer.
  - destruct (verify_admits_only_on_true unit anonymous enabled_filter tt tt _ _ H')
      as (Hnext & _ & _ & _ & Hmissing & _).
    destruct (Hmissing eq_refl) as (_ & _ & _). exact Hnext.
Defined.

End PermissionSpec.
